(** * mbf_genomes.gene: exon merging and intron derivation

    A shallow embedding of [src/mbf_genomes/gene.py]:
    - [merge_exons], the sweep over the sorted exon list with its numpy
      arrays [starts], [stops], [keep] and the cursors [last_stop],
      [last_row];
    - [_intron_intervals_from_exons], the walk over the exons that emits
      the gaps between them;
    - the [Gene] and [Transcript] classes with their derived properties.

    Coordinates are Python integers and are modelled as [Z]; the code only
    compares them and takes maxima, so no machine arithmetic is involved.
    The numpy arrays of [merge_exons] and [Gene._reformat_exons] are
    modelled as int64 arrays, which hold every integer from [-2^63] up to
    [2^63 - 1] exactly: for larger coordinates numpy chooses another dtype
    (uint64, float64 with rounding, object), which the model does not
    follow, so every property about the values in these arrays is stated
    for coordinates in that range ([int64], [genomic]).
    Exceptions are modelled by the [result] type. *)

From stdpp Require Import list sorting strings.
From Stdlib Require Import ZArith Lia.

Open Scope Z_scope.

(** ** Exceptions and the error monad *)

(** The Python exceptions the module can raise, each with its message. *)
Inductive exception : Type :=
| ValueError (msg : string)
| IndexError (msg : string)
| TypeError (msg : string).

Inductive result (A : Type) : Type :=
| Ok (a : A)
| Raise (e : exception).
Arguments Ok {A} a.
Arguments Raise {A} e.

#[global] Instance result_bind : MBind result := fun A B k r =>
  match r with
  | Ok a => k a
  | Raise e => Raise e
  end.

(** The messages of the exceptions raised in gene.py and by the list and
    array operations it uses. *)
Definition inverted_exon : exception := ValueError "inverted exon".

Definition exons_need_merging : exception :=
  ValueError
    ("_intron_intervals_from_exons saw exons that need merging by setting merge=True,"
     +:+ " but merge was False - should not happen?").

Definition array_element_with_sequence : exception :=
  ValueError "setting an array element with a sequence.".

Definition list_index_out_of_range : exception :=
  IndexError "list index out of range".

Definition array_index_out_of_bounds : exception :=
  IndexError "index is out of bounds".

Definition none_not_iterable : exception :=
  TypeError "'NoneType' object is not iterable".

(** ** Exons and their order *)

(** An exon is a tuple [(start, stop)]. *)
Definition exon : Type := Z * Z.

(** Python compares tuples lexicographically; this is the order
    [list.sort] and [sorted] use on exon tuples. *)
Definition exon_le (a b : exon) : Prop :=
  a.1 < b.1 \/ (a.1 = b.1 /\ a.2 <= b.2).

#[global] Instance exon_le_dec (a b : exon) : Decision (exon_le a b).
Proof. unfold exon_le. apply _. Defined.

#[global] Instance exon_le_trans : Transitive exon_le.
Proof. intros [a1 a2] [b1 b2] [c1 c2]; unfold exon_le; simpl; lia. Qed.

#[global] Instance exon_le_total : Total exon_le.
Proof. intros [a1 a2] [b1 b2]; unfold exon_le; simpl; lia. Qed.

#[global] Instance exon_le_antisymm : AntiSymm (=) exon_le.
Proof.
  intros [a1 a2] [b1 b2]; unfold exon_le; simpl; intros H1 H2.
  f_equal; lia.
Qed.

#[global] Instance exon_le_refl : Reflexive exon_le.
Proof. intros [a1 a2]; unfold exon_le; simpl; lia. Qed.

(** [exons.sort()] / [sorted(exons)]: the ascending sort of a list of
    tuples.  The order is total and antisymmetric, so the sorted
    permutation is unique (see [sort_unique]) and any sorting algorithm
    computes it. *)
Definition sort (exons : list exon) : list exon := merge_sort exon_le exons.

(** ** numpy arrays as lists *)

(** [a[i]] for an integer index. *)
Definition getitem {A} (a : list A) (i : nat) : result A :=
  match a !! i with
  | Some x => Ok x
  | None => Raise array_index_out_of_bounds
  end.

(** [a[i] = v] for an integer index. *)
Definition setitem {A} (a : list A) (i : nat) (v : A) : result (list A) :=
  if decide (i < length a)%nat then Ok (<[i:=v]> a)
  else Raise array_index_out_of_bounds.

(** [a[keep]] for a boolean mask of the same length. *)
Fixpoint mask_select {A} (a : list A) (keep : list bool) : list A :=
  match a, keep with
  | x :: a', k :: keep' =>
      if k then x :: mask_select a' keep' else mask_select a' keep'
  | _, _ => []
  end.

(** ** merge_exons *)

(** The local variables of [merge_exons] that the loop updates. *)
Record sweep : Type := Sweep {
  starts : list Z;
  stops : list Z;
  keep : list bool;
  last_stop : Z;
  last_row : option nat
}.

(** [starts[last_row]] as the right-hand side of [starts[ii] = ...].
    When [last_row] is [None] numpy takes it for [np.newaxis], the value is
    the whole array with shape [(1, lendf)]: storing it into one element
    raises when the array has two or more elements, in every numpy
    version. For an array with exactly one element the model follows numpy
    up to 2.3, which stores that element (numpy 2.4 raises there as well);
    this case is reached only by a single exon with a negative start, and
    no property below is about it. *)
Definition starts_at_last_row (s : sweep) : result Z :=
  match last_row s with
  | Some r => getitem (starts s) r
  | None =>
      if decide (length (starts s) = 1%nat) then getitem (starts s) 0
      else Raise array_element_with_sequence
  end.

(** One iteration of the [while] loop (lines 27-36), for index [ii]. *)
Definition sweep_body (ii : nat) (s : sweep) : result sweep :=
  start_ii ← getitem (starts s) ii;
  s1 ← (if decide (start_ii < last_stop s) then
           v ← starts_at_last_row s;
           starts' ← setitem (starts s) ii v;
           stop_ii ← getitem (stops s) ii;
           stops' ← setitem (stops s) ii (Z.max stop_ii (last_stop s));
           Ok (Sweep starts' stops' (keep s) (last_stop s) (last_row s))
         else
           match last_row s with
           | Some r =>
               keep' ← setitem (keep s) r true;
               Ok (Sweep (starts s) (stops s) keep' (last_stop s) (last_row s))
           | None => Ok s
           end);
  stop_ii ← getitem (stops s1) ii;
  let last_stop' :=
    if decide (stop_ii > last_stop s1) then stop_ii else last_stop s1 in
  Ok (Sweep (starts s1) (stops s1) (keep s1) last_stop' (Some ii)).

(** [while ii < lendf: ...; ii += 1], with [n] the number of iterations
    left, [lendf - ii]. *)
Fixpoint sweep_loop (n : nat) (ii : nat) (s : sweep) : result sweep :=
  match n with
  | O => Ok s
  | S n' => s' ← sweep_body ii s; sweep_loop n' (S ii) s'
  end.

(** Lines 38-40: the last row is kept and the arrays are masked. *)
Definition sweep_result (s : sweep) : result (list Z * list Z) :=
  keep' ← match last_row s with
          | Some r => setitem (keep s) r true
          | None => Ok (keep s)
          end;
  Ok (mask_select (starts s) keep', mask_select (stops s) keep').

(** Lines 19-40 of [merge_exons], on the list as sorted by line 18. The
    columns [starts0] and [stops0] are the int64 arrays of lines 19-20:
    exact for coordinates from [-2^63] up to [2^63 - 1]. *)
Definition merge_sorted (exons : list exon) : result (list Z * list Z) :=
  let starts0 := map fst exons in
  let stops0 := map snd exons in
  let lendf := length starts0 in
  let keep0 := replicate lendf false in
  s ← sweep_loop lendf 0 (Sweep starts0 stops0 keep0 0 None);
  sweep_result s.

(** [merge_exons(exons)].  [exons.sort()] sorts the caller's list object
    in place, so the call has an effect besides its value: the first
    component is the content of the caller's list after the call, the
    second is what the call returns or raises. *)
Definition merge_exons (exons : list exon)
  : list exon * result (list Z * list Z) :=
  let exons' := sort exons in
  (exons', merge_sorted exons').

(** ** The tabular collaborator *)

(** A [pandas.DataFrame] with the three columns the module builds and
    reads: ["chr"], ["start"] and ["stop"]. *)
Record DataFrame : Type := mkDataFrame {
  df_chr : list string;
  df_start : list Z;
  df_stop : list Z
}.

(** [list(zip( *exons))]: the transposed exon list, a list with the tuple
    of starts and the tuple of stops, and the empty list when there is no
    exon. *)
Definition zip_star (exons : list exon) : list (list Z) :=
  match exons with
  | [] => []
  | _ :: _ => [map fst exons; map snd exons]
  end.

(** Indexing a Python list. *)
Definition list_getitem {A} (l : list A) (i : nat) : result A :=
  match l !! i with
  | Some x => Ok x
  | None => Raise list_index_out_of_range
  end.

(** ** Gene and Transcript records *)

Module Gene.
(** The attributes of class [Gene] besides [transcripts].  A transcript's
    back-reference [gene] is used for read access to these only. *)
Record attrs : Type := mk {
  gene_stable_id : string;
  name : string;
  chr : string;
  start : Z;
  stop : Z;
  strand : Z;
  biotype : string
}.
End Gene.

Module Transcript.
Record t : Type := mk {
  transcript_stable_id : string;
  gene_stable_id : string;
  name : string;
  chr : string;
  start : Z;
  stop : Z;
  strand : Z;
  biotype : string;
  exons : list exon;
  exon_stable_ids : list string;
  gene : Gene.attrs
}.
End Transcript.

(** Class [Gene]: its attributes and [transcripts], which is [None] by
    default. *)
Record Gene : Type := mkGene {
  attrs :> Gene.attrs;
  transcripts : option (list Transcript.t)
}.

(** ** The walk over the exons *)

(** The variables the [for] loop of [_intron_intervals_from_exons]
    updates. *)
Record walk : Type := Walk {
  intron_start : Z;
  res : list exon;
  exon_no : nat
}.

(** The body of the [for] loop (lines 60-76). *)
Definition walk_body (e : exon) (w : walk) : result walk :=
  let '(exon_start, exon_stop) := e in
  if decide (exon_stop < exon_start) then Raise inverted_exon
  else
    res' ← (if decide (intron_start w ≠ exon_start) then
              if decide (intron_start w > exon_start)
              then Raise exons_need_merging
              else Ok (res w ++ [(intron_start w, exon_start)])
            else Ok (res w));
    Ok (Walk exon_stop res' (S (exon_no w))).

(** [for exon_start, exon_stop in exons: ...] *)
Fixpoint walk_loop (exons : list exon) (w : walk) : result walk :=
  match exons with
  | [] => Ok w
  | e :: exons' => w' ← walk_body e w; walk_loop exons' w'
  end.

(** ** The functions that depend on [merge_intervals] *)

Section gene_py.

(** [mbf_genomes.intervals.merge_intervals], imported by gene.py and
    not part of the sources at hand: every result below holds for each
    function in its place. *)
Variable merge_intervals : DataFrame -> result DataFrame.

(** Lines 47-57: the exons are sent through [merge_intervals] and read
    back from its ["start"] and ["stop"] columns. *)
Definition premerge (exons : list exon) : result (list exon) :=
  let zip_exons := zip_star exons in
  let chrs := replicate (length exons) "X" in
  col_start ← list_getitem zip_exons 0;
  col_stop ← list_getitem zip_exons 1;
  temp_df ← merge_intervals (mkDataFrame chrs col_start col_stop);
  Ok (zip (df_start temp_df) (df_stop temp_df)).

Definition _intron_intervals_from_exons
    (exons : list exon) (gene_start gene_stop : Z) (merge : bool)
  : result (list exon) :=
  exons' ← (if merge then premerge exons else Ok exons);
  w ← walk_loop exons' (Walk gene_start [] 0);
  if decide (intron_start w < gene_stop)
  then Ok (res w ++ [(intron_start w, gene_stop)])
  else Ok (res w).

(** *** Transcript properties *)

Definition Transcript_exons_tuples (tr : Transcript.t) : list exon :=
  map (fun '(start, stop) => (start, stop)) (Transcript.exons tr).

(** [Transcript.introns]: [merge] keeps its default, [False]. *)
Definition Transcript_introns (tr : Transcript.t) : result (list exon) :=
  let gene_start := Gene.start (Transcript.gene tr) in
  let gene_stop := Gene.stop (Transcript.gene tr) in
  let exons := sort (Transcript_exons_tuples tr) in
  _intron_intervals_from_exons exons gene_start gene_stop false.

(** *** Gene properties *)

Definition Gene_tss (g : Gene) : Z :=
  if decide (Gene.strand g = 1) then Gene.start g else Gene.stop g.

Definition Gene_tes (g : Gene) : Z :=
  if decide (Gene.strand g ≠ 1) then Gene.start g else Gene.stop g.

(** [for tr in self.transcripts] *)
Definition iter_transcripts (g : Gene) : result (list Transcript.t) :=
  match transcripts g with
  | Some trs => Ok trs
  | None => Raise none_not_iterable
  end.

(** [Gene._exons]: a new list, extended by the exons of each
    transcript. *)
Definition Gene_exons (g : Gene) : result (list exon) :=
  trs ← iter_transcripts g;
  Ok (foldl (fun exons tr => exons ++ Transcript.exons tr) [] trs).

(** [Gene.exons_merged]: the list [merge_exons] sorts in place is the
    new list made by [_exons], which is dropped afterwards. *)
Definition Gene_exons_merged (g : Gene) : result (list Z * list Z) :=
  exons ← Gene_exons g;
  (merge_exons exons).2.

(** [Gene._reformat_exons], with the content of the argument list after
    the call as first component. The two columns are the int64 arrays of
    line 153: exact for coordinates from [-2^63] up to [2^63 - 1]. *)
Definition Gene_reformat_exons (exons : list exon)
  : list exon * (list Z * list Z) :=
  let exons' := sort exons in
  (exons', (map fst exons', map snd exons')).

Definition Gene_exons_overlapping (g : Gene) : result (list Z * list Z) :=
  exons ← Gene_exons g;
  Ok (Gene_reformat_exons exons).2.

Definition Gene_exons_protein_coding (g : Gene) : result (list exon) :=
  trs ← iter_transcripts g;
  Ok (foldl (fun exons tr =>
               if decide (Transcript.biotype tr = "protein_coding")
               then exons ++ Transcript.exons tr else exons) [] trs).

Definition Gene_exons_protein_coding_merged (g : Gene)
  : result (list Z * list Z) :=
  exons ← Gene_exons_protein_coding g;
  (merge_exons exons).2.

Definition Gene_exons_protein_coding_overlapping (g : Gene)
  : result (list Z * list Z) :=
  exons ← Gene_exons_protein_coding g;
  Ok (Gene_reformat_exons exons).2.

(** [Gene.introns] *)
Definition Gene_introns (g : Gene) : result (list exon) :=
  let gene_start := Gene.start g in
  let gene_stop := Gene.stop g in
  trs ← iter_transcripts g;
  let exons := foldl (fun exons tr => exons ++ Transcript.exons tr) [] trs in
  let exons := sort exons in
  transcript_introns ←
    _intron_intervals_from_exons exons gene_start gene_stop true;
  let col_start := map fst transcript_introns in
  let col_stop := map snd transcript_introns in
  let col_chr := replicate (length col_start) (Gene.chr g) in
  introns ← merge_intervals (mkDataFrame col_chr col_start col_stop);
  Ok (zip (df_start introns) (df_stop introns)).

End gene_py.

(** ** Notions used to state the properties *)

(** The invariant of an interval: its stop does not precede its start. *)
Definition valid (e : exon) : Prop := e.1 <= e.2.

(** Coordinates that numpy holds exactly in an int64 array. *)
Definition int64 (e : exon) : Prop :=
  - 2 ^ 63 <= e.1 < 2 ^ 63 /\ - 2 ^ 63 <= e.2 < 2 ^ 63.

(** A valid interval in genomic coordinates, which start at 0 and which
    an int64 array holds: [0 <= start <= stop < 2^63]. *)
Definition genomic (e : exon) : Prop :=
  0 <= e.1 /\ e.1 <= e.2 /\ e.2 < 2 ^ 63.

(** [x] lies in one of the half-open intervals of [l]. *)
Definition covered (x : Z) (l : list exon) : Prop :=
  exists e, e ∈ l /\ e.1 <= x < e.2.

(** Ascending order of start. *)
Definition by_start (a b : exon) : Prop := a.1 <= b.1.

(** [b] follows [a] without overlap, in ascending order of start. *)
Definition precedes (a b : exon) : Prop := a.1 <= b.1 /\ a.2 <= b.1.

(** Two intervals share more than an end point. *)
Definition strictly_overlap (a b : exon) : Prop := a.1 < b.2 /\ b.1 < a.2.

#[global] Instance strictly_overlap_dec (a b : exon) :
  Decision (strictly_overlap a b).
Proof. unfold strictly_overlap. apply _. Defined.

(** The arrays of a list of intervals. *)
Definition columns (l : list exon) : list Z * list Z := (map fst l, map snd l).

(** The runs the sweep of [merge_exons] keeps, as a recursion over the
    sorted exons: [cur] is the row at [last_row] as rewritten so far and
    [ls] is [last_stop]. *)
Fixpoint sweep_runs (cur : exon) (ls : Z) (rest : list exon) : list exon :=
  match rest with
  | [] => [cur]
  | e :: rest' =>
      if decide (e.1 < ls) then
        let stop' := Z.max e.2 ls in
        sweep_runs (cur.1, stop') (if decide (stop' > ls) then stop' else ls) rest'
      else
        cur :: sweep_runs e (if decide (e.2 > ls) then e.2 else ls) rest'
  end.

(** What lines 19-40 of [merge_exons] compute on a sorted list, without the
    arrays. *)
Definition merge_runs (exons : list exon) : result (list exon) :=
  match exons with
  | [] => Ok []
  | e :: rest =>
      if decide (e.1 < 0) then
        match rest with
        | [] => Ok [(e.1, Z.max e.2 0)]
        | _ :: _ => Raise array_element_with_sequence
        end
      else Ok (sweep_runs e (if decide (e.2 > 0) then e.2 else 0) rest)
  end.

(** The interval [(a, b)] when it is not empty. *)
Definition gap (a b : Z) : list exon := if decide (a < b) then [(a, b)] else [].

(** One gap for each pair of consecutive exons that do not touch. *)
Fixpoint gaps_between (exons : list exon) : list exon :=
  match exons with
  | a :: (b :: _) as rest => gap a.2 b.1 ++ gaps_between rest
  | _ => []
  end.

(** The stop of the last exon, [region_start] when there is none: where
    the walk stands after the exons. *)
Definition cursor_after (region_start : Z) (exons : list exon) : Z :=
  default region_start (last (map snd exons)).

(** The gaps the exons leave in the region: the leading gap, the gaps
    between consecutive exons, the trailing gap. *)
Definition complementary_gaps
    (region_start : Z) (exons : list exon) (region_stop : Z) : list exon :=
  match exons with
  | [] => gap region_start region_stop
  | first :: _ =>
      gap region_start first.1 ++ gaps_between exons
        ++ gap (cursor_after region_start exons) region_stop
  end.

(** Each exon lies inside the region. *)
Definition inside (region_start region_stop : Z) (e : exon) : Prop :=
  region_start <= e.1 /\ e.1 <= e.2 /\ e.2 <= region_stop.

(** The gaps emitted from cursor [c] on, as the walk emits them. *)
Fixpoint gaps_from (c : Z) (exons : list exon) : list exon :=
  match exons with
  | [] => []
  | e :: rest => gap c e.1 ++ gaps_from e.2 rest
  end.

(** The exons the walk gets through from cursor [c] without raising: none
    is inverted and none starts below the cursor. *)
Fixpoint chain (c : Z) (exons : list exon) : Prop :=
  match exons with
  | [] => True
  | e :: rest => c <= e.1 /\ e.1 <= e.2 /\ chain e.2 rest
  end.

(** An identity stand-in for [merge_intervals], for running examples of
    the functions that take it and never call it. *)
Definition no_merge (df : DataFrame) : result DataFrame := Ok df.

(** ** Example records *)

Definition gene_G1 : Gene.attrs :=
  Gene.mk "G1" "gene one" "1" 0 100 1 "protein_coding".

(** A gene whose stop equals its start. *)
Definition gene_G2 : Gene.attrs :=
  Gene.mk "G2" "gene two" "1" 40 40 (-1) "lincRNA".

(** A transcript of [gene_G1] that spans [10, 60) only; its exons are
    stored in descending order. *)
Definition transcript_T1 : Transcript.t :=
  Transcript.mk "T1" "G1" "transcript one" "1" 10 60 1 "protein_coding"
    [(50, 60); (10, 20)] ["E2"; "E1"] gene_G1.

(** Transcripts without exons. *)
Definition transcript_T2 : Transcript.t :=
  Transcript.mk "T2" "G1" "transcript two" "1" 0 100 1 "protein_coding"
    [] [] gene_G1.

Definition transcript_T3 : Transcript.t :=
  Transcript.mk "T3" "G2" "transcript three" "1" 40 40 (-1) "lincRNA"
    [] [] gene_G2.

(** [gene_G1] with an empty list of transcripts. *)
Definition gene_without_transcripts : Gene := mkGene gene_G1 (Some []).

(** ** Notions used for the further properties *)

(** The summed length of the intervals of [l]. *)
Definition total_length (l : list exon) : Z :=
  foldr (fun e n => (e.2 - e.1) + n) 0 l.

(** The exons of a list of transcripts, one transcript after the other. *)
Definition all_exons (trs : list Transcript.t) : list exon :=
  concat (map Transcript.exons trs).

Definition protein_coding (tr : Transcript.t) : Prop :=
  Transcript.biotype tr = "protein_coding".

#[global] Instance protein_coding_dec (tr : Transcript.t) :
  Decision (protein_coding tr).
Proof. unfold protein_coding. apply _. Defined.

(** The gene with only its protein coding transcripts. *)
Definition protein_coding_only (g : Gene) : Gene :=
  mkGene (attrs g) (filter protein_coding <$> transcripts g).

(** The table of the exons that line 51 hands to [merge_intervals]. *)
Definition exon_table (exons : list exon) : DataFrame :=
  mkDataFrame (replicate (length exons) "X") (map fst exons) (map snd exons).

(** A transcript of [gene_G1] that is not protein coding, with two
    overlapping exons. *)
Definition transcript_T4 : Transcript.t :=
  Transcript.mk "T4" "G1" "transcript four" "1" 30 45 1 "lincRNA"
    [(30, 40); (35, 45)] ["E3"; "E4"] gene_G1.

(** [gene_G1] with two transcripts, and with [transcripts] left at its
    default. *)
Definition gene_with_transcripts : Gene :=
  mkGene gene_G1 (Some [transcript_T1; transcript_T4]).

Definition gene_transcripts_unset : Gene := mkGene gene_G1 None.

(** * Properties *)

(** ** Sorting *)

Lemma sort_sorted (l : list exon) : Sorted exon_le (sort l).
Proof. apply Sorted_merge_sort; apply _. Qed.

Lemma sort_perm (l : list exon) : sort l ≡ₚ l.
Proof. apply merge_sort_Permutation. Qed.

(** The sorted permutation of a list of tuples is unique: [sort] is what
    every sorting algorithm returns. *)
Lemma sort_unique (l l' : list exon) :
  Sorted exon_le l' -> l' ≡ₚ l -> sort l = l'.
Proof.
  intros Hs Hp. apply (Sorted_unique exon_le); auto using sort_sorted.
  rewrite sort_perm. by symmetry.
Qed.

Lemma sort_id (l : list exon) : Sorted exon_le l -> sort l = l.
Proof. intros Hs. by apply sort_unique. Qed.

Lemma sort_Forall (P : exon -> Prop) (l : list exon) :
  Forall P l -> Forall P (sort l).
Proof. intros H. by rewrite sort_perm. Qed.

Lemma sort_covered (x : Z) (l : list exon) : covered x (sort l) <-> covered x l.
Proof.
  unfold covered. split; intros (e & He & Hx); exists e; split; auto.
  - by rewrite <- (sort_perm l).
  - by rewrite (sort_perm l).
Qed.

(** ** Arrays *)

Lemma getitem_middle {A} (l1 l2 : list A) (x : A) :
  getitem (l1 ++ x :: l2) (length l1) = Ok x.
Proof. unfold getitem. by rewrite list_lookup_middle. Qed.

Lemma setitem_middle {A} (l1 l2 : list A) (x v : A) :
  setitem (l1 ++ x :: l2) (length l1) v = Ok (l1 ++ v :: l2).
Proof.
  unfold setitem. rewrite length_app, length_cons.
  destruct (decide _) as [_|Hn]; [|lia].
  f_equal. replace (length l1) with (length l1 + 0)%nat at 1 by lia.
  by rewrite insert_app_r.
Qed.

Lemma mask_select_app {A} (a a' : list A) (k k' : list bool) :
  length k = length a ->
  mask_select (a ++ a') (k ++ k') = mask_select a k ++ mask_select a' k'.
Proof.
  revert k. induction a as [|x a IH]; intros [|b k] Hlen; simplify_eq/=; auto.
  destruct b; simpl; by rewrite IH.
Qed.

(** ** The sweep of merge_exons computes [merge_runs] *)

Lemma getitem_after {A} (l1 l2 : list A) (x y : A) :
  getitem (l1 ++ x :: y :: l2) (S (length l1)) = Ok y.
Proof.
  rewrite (cons_middle x), app_assoc.
  replace (S (length l1)) with (length (l1 ++ [x]))
    by (rewrite length_app; simpl; lia).
  apply getitem_middle.
Qed.

Lemma setitem_after {A} (l1 l2 : list A) (x y v : A) :
  setitem (l1 ++ x :: y :: l2) (S (length l1)) v = Ok (l1 ++ x :: v :: l2).
Proof.
  rewrite (cons_middle x l1 (y :: l2)), (cons_middle x l1 (v :: l2)), !app_assoc.
  replace (S (length l1)) with (length (l1 ++ [x]))
    by (rewrite length_app; simpl; lia).
  apply setitem_middle.
Qed.

Lemma snoc_length {A} (l : list A) (x : A) : length (l ++ [x]) = S (length l).
Proof. rewrite length_app; simpl; lia. Qed.

(** An iteration whose row starts below [last_stop]: the row takes the
    start of the open run and the larger stop. *)
Lemma sweep_body_join (ms me ss es : list Z) (K : list bool) (c1 c2 e1 e2 ls : Z) :
  length me = length ms ->
  e1 < ls ->
  sweep_body (S (length ms))
    (Sweep (ms ++ c1 :: e1 :: ss) (me ++ c2 :: e2 :: es) K ls (Some (length ms)))
  = Ok (Sweep (ms ++ c1 :: c1 :: ss) (me ++ c2 :: Z.max e2 ls :: es) K
          (if decide (Z.max e2 ls > ls) then Z.max e2 ls else ls)
          (Some (S (length ms)))).
Proof.
  intros Hme Hlt. unfold sweep_body, starts_at_last_row. simpl.
  rewrite getitem_after. simpl.
  rewrite decide_True by done.
  rewrite getitem_middle. simpl. rewrite setitem_after. simpl.
  rewrite <- Hme, getitem_after. simpl. rewrite setitem_after. simpl.
  rewrite getitem_after. simpl. done.
Qed.

(** An iteration whose row starts at or after [last_stop]: the open run
    is kept and the row opens a new one. *)
Lemma sweep_body_new_run (ms me ss es : list Z) (ks ks' : list bool) (k : bool)
    (c1 c2 e1 e2 ls : Z) :
  length me = length ms ->
  length ks = length ms ->
  ~ e1 < ls ->
  sweep_body (S (length ms))
    (Sweep (ms ++ c1 :: e1 :: ss) (me ++ c2 :: e2 :: es) (ks ++ k :: ks') ls
       (Some (length ms)))
  = Ok (Sweep (ms ++ c1 :: e1 :: ss) (me ++ c2 :: e2 :: es) (ks ++ true :: ks')
          (if decide (e2 > ls) then e2 else ls)
          (Some (S (length ms)))).
Proof.
  intros Hme Hks Hge. unfold sweep_body. simpl.
  rewrite getitem_after. simpl.
  rewrite decide_False by done.
  rewrite <- Hks, setitem_middle. simpl.
  rewrite Hks, <- Hme, getitem_after. simpl. done.
Qed.

Lemma sweep_loop_runs (rest : list exon) :
  forall (ms me : list Z) (ks : list bool) (c : exon) (ls : Z),
    length me = length ms ->
    length ks = length ms ->
    (s ← sweep_loop (length rest) (S (length ms))
           (Sweep (ms ++ c.1 :: map fst rest) (me ++ c.2 :: map snd rest)
                  (ks ++ false :: replicate (length rest) false)
                  ls (Some (length ms)));
     sweep_result s)
    = Ok (mask_select ms ks ++ map fst (sweep_runs c ls rest),
          mask_select me ks ++ map snd (sweep_runs c ls rest)).
Proof.
  induction rest as [|e rest IH]; intros ms me ks c ls Hme Hks.
  - simpl. unfold sweep_result; simpl.
    rewrite <- Hks, setitem_middle; simpl.
    by rewrite !mask_select_app by (simpl; lia).
  - cbn [length map sweep_loop replicate sweep_runs].
    destruct (decide (e.1 < ls)) as [Hlt|Hge].
    + rewrite sweep_body_join by done. cbn [mbind result_bind].
      specialize (IH (ms ++ [c.1]) (me ++ [c.2]) (ks ++ [false])
                    (c.1, Z.max e.2 ls)
                    (if decide (Z.max e.2 ls > ls) then Z.max e.2 ls else ls)).
      rewrite !snoc_length, <- !app_assoc in IH. simpl in IH.
      rewrite IH by lia.
      by rewrite !mask_select_app, !app_nil_r by (simpl; lia).
    + rewrite sweep_body_new_run by done. cbn [mbind result_bind].
      specialize (IH (ms ++ [c.1]) (me ++ [c.2]) (ks ++ [true]) e
                    (if decide (e.2 > ls) then e.2 else ls)).
      rewrite !snoc_length, <- !app_assoc in IH. simpl in IH.
      rewrite IH by lia.
      rewrite !mask_select_app by (simpl; lia). simpl.
      by rewrite <- !app_assoc.
Qed.

(** Lines 19-40 never index out of bounds: on every sorted list they
    compute [merge_runs], whose only error is numpy's refusal to store the
    whole array into one element when the first start is negative. *)
Lemma merge_sorted_runs (exons : list exon) :
  merge_sorted exons = (runs ← merge_runs exons; Ok (columns runs)).
Proof.
  destruct exons as [|e rest]; [done|].
  unfold merge_sorted, merge_runs.
  cbn [length map sweep_loop replicate].
  unfold sweep_body at 1.
  cbn [starts stops keep last_stop last_row getitem lookup list_lookup
       mbind result_bind].
  destruct (decide (e.1 < 0)) as [Hneg|Hpos].
  - unfold starts_at_last_row. cbn [starts stops keep last_stop last_row length].
    destruct rest as [|e' rest].
    + simpl. unfold sweep_result, columns. simpl. done.
    + rewrite decide_False by (simpl; lia). done.
  - cbn [mbind result_bind starts stops keep last_stop last_row getitem
         lookup list_lookup].
    pose proof (sweep_loop_runs rest [] [] [] e
                  (if decide (e.2 > 0) then e.2 else 0)) as H.
    simpl in H. rewrite length_map. by apply H.
Qed.

(** ** Coverage and the runs *)

Lemma Sorted_weaken {A} (R R' : relation A) (l : list A) :
  (forall a b, R a b -> R' a b) -> Sorted R l -> Sorted R' l.
Proof.
  intros HR. induction 1 as [|a l Hs IH Hhd]; constructor; auto.
  destruct Hhd; constructor; auto.
Qed.

Lemma covered_nil (x : Z) : covered x [] <-> False.
Proof.
  unfold covered. split; [|done].
  intros (e & He & _). by apply elem_of_nil in He.
Qed.

Lemma covered_cons (x : Z) (a : exon) (l : list exon) :
  covered x (a :: l) <-> a.1 <= x < a.2 \/ covered x l.
Proof.
  unfold covered. split.
  - intros (e & He & Hx). apply elem_of_cons in He as [->|He]; eauto.
  - intros [Hx|(e & He & Hx)]; [exists a|exists e]; split; auto;
      apply elem_of_cons; auto.
Qed.

Lemma covered_app (x : Z) (l1 l2 : list exon) :
  covered x (l1 ++ l2) <-> covered x l1 \/ covered x l2.
Proof.
  induction l1 as [|a l1 IH]; simpl.
  - rewrite covered_nil. tauto.
  - rewrite !covered_cons, IH. tauto.
Qed.

(** With valid exons in ascending order of start, [last_stop] is the stop
    of the open run. *)
Lemma sweep_runs_spec (rest : list exon) :
  forall cur : exon,
    valid cur -> Forall valid rest -> Sorted by_start (cur :: rest) ->
    let out := sweep_runs cur cur.2 rest in
    (exists stop' tl, out = (cur.1, stop') :: tl)
    /\ Forall valid out
    /\ Sorted precedes out
    /\ (forall x, covered x out <-> covered x (cur :: rest))
    /\ (length out <= S (length rest))%nat.
Proof.
  induction rest as [|e rest IH]; intros [c1 c2] Hc Hv Hs; simpl in *.
  - split_and!; eauto; try done; by repeat constructor.
  - apply Forall_cons in Hv as [He Hv].
    apply Sorted_inv in Hs as [Hs Hhd]. apply HdRel_inv in Hhd.
    unfold valid, by_start in Hc, He, Hhd; simpl in *.
    destruct (decide (e.1 < c2)) as [Hlt|Hge].
    + assert (Hls : (if decide (Z.max e.2 c2 > c2) then Z.max e.2 c2 else c2)
                    = Z.max e.2 c2) by (case_decide; lia).
      rewrite Hls.
      destruct (IH (c1, Z.max e.2 c2)) as (Hh & Hval & Hsort & Hcov & Hlen);
        simpl; [unfold valid; simpl; lia|done| |].
      { apply Sorted_inv in Hs as [Hs Hhd'].
        constructor; [done|]. destruct Hhd'; constructor.
        unfold by_start in *; simpl; lia. }
      simpl in *. split_and!; auto; try lia.
      intros x. rewrite Hcov, !covered_cons. simpl. intuition lia.
    + assert (Hls : (if decide (e.2 > c2) then e.2 else c2) = e.2)
        by (case_decide; lia).
      rewrite Hls.
      destruct (IH e) as ((stop' & tl & Hh) & Hval & Hsort & Hcov & Hlen); auto.
      simpl in *. split_and!; eauto; try lia.
      * constructor; auto. rewrite Hh. constructor. unfold precedes; simpl; lia.
      * intros x.
        rewrite (covered_cons x (c1, c2)), Hcov, (covered_cons x (c1, c2)). tauto.
Qed.

(** ** merge_exons on genomic exons *)

Lemma merge_exons_runs (exons : list exon) :
  merge_exons exons
  = (sort exons, runs ← merge_runs (sort exons); Ok (columns runs)).
Proof. unfold merge_exons. by rewrite merge_sorted_runs. Qed.

Lemma genomic_valid (e : exon) : genomic e -> valid e.
Proof. unfold genomic, valid. tauto. Qed.

Lemma exon_le_by_start (a b : exon) : exon_le a b -> by_start a b.
Proof. unfold exon_le, by_start. lia. Qed.

(** On genomic exons in sorted order the sweep raises nothing and keeps
    the runs. *)
Lemma merge_runs_genomic (l : list exon) :
  Forall genomic l -> Sorted exon_le l ->
  exists out,
    merge_runs l = Ok out
    /\ Forall valid out
    /\ Sorted precedes out
    /\ (forall x, covered x out <-> covered x l)
    /\ (length out <= length l)%nat.
Proof.
  intros Hg Hs. destruct l as [|e rest].
  - exists []. by split_and!.
  - apply Forall_cons in Hg as [(He0 & He & Heb) Hg]. simpl.
    rewrite decide_False by lia.
    assert (Hls : (if decide (e.2 > 0) then e.2 else 0) = e.2)
      by (case_decide; lia).
    rewrite Hls. eexists; split; [done|].
    destruct (sweep_runs_spec rest e) as (_ & Hval & Hsort & Hcov & Hlen); auto.
    + eapply Forall_impl; [exact Hg|apply genomic_valid].
    + eapply Sorted_weaken; [apply exon_le_by_start|done].
Qed.

(** C1, for genomic coordinates: whenever every input interval satisfies
    [0 <= start <= stop < 2^63], [merge_exons] returns two arrays
    [(starts, stops)]
    of the same length, no longer than the input, with the starts in
    ascending order, in which no interval is followed by one that starts
    before it stops, and whose half-open intervals cover exactly the
    coordinates the input intervals cover. *)
Theorem merge_exons_correct (exons : list exon) :
  Forall genomic exons ->
  exists starts stops : list Z,
    (merge_exons exons).2 = Ok (starts, stops)
    /\ length starts = length stops
    /\ (length starts <= length exons)%nat
    /\ Sorted Z.le starts
    /\ Sorted (fun a b : exon => ~ a.2 > b.1) (zip starts stops)
    /\ (forall x, covered x (zip starts stops) <-> covered x exons).
Proof.
  intros Hg. rewrite merge_exons_runs. simpl.
  destruct (merge_runs_genomic (sort exons))
    as (out & -> & Hval & Hsort & Hcov & Hlen).
  { by apply sort_Forall. }
  { apply sort_sorted. }
  exists (map fst out), (map snd out). simpl. split_and!; auto.
  - by rewrite !length_map.
  - by rewrite length_map, <- (Permutation_length (sort_perm exons)).
  - apply (Sorted_fmap fst precedes Z.le); [|done]. unfold precedes. intros; lia.
  - rewrite zip_fst_snd. eapply Sorted_weaken; [|done]. unfold precedes. intros; lia.
  - intros x. rewrite zip_fst_snd, Hcov. apply sort_covered.
Qed.

(** C1 on five unsorted genomic exons. *)
Lemma merge_exons_correct_witness :
  exists starts stops : list Z,
    (merge_exons [(7, 9); (3, 10); (0, 5); (20, 30); (12, 13)]).2 = Ok (starts, stops)
    /\ length starts = length stops
    /\ (length starts <= 5)%nat
    /\ Sorted Z.le starts
    /\ Sorted (fun a b : exon => ~ a.2 > b.1) (zip starts stops)
    /\ (forall x, covered x (zip starts stops)
                  <-> covered x [(7, 9); (3, 10); (0, 5); (20, 30); (12, 13)]).
Proof.
  apply merge_exons_correct.
  repeat constructor; simpl; lia.
Defined.

(** C1, counterexample. Both intervals of [(-5,-3), (1,2)] satisfy
    [start <= stop]; the first starts below 0 and the call raises instead
    of returning. And the output is not always the smallest cover: the
    touching intervals [(0,5), (5,10)] are returned as two intervals,
    which cover what the one interval [(0,10)] covers. *)
Lemma merge_exons_negative_or_touching :
  (Forall valid [(-5, -3); (1, 2)]
   /\ (merge_exons [(-5, -3); (1, 2)]).2 = Raise array_element_with_sequence)
  /\ (Forall valid [(0, 5); (5, 10)]
      /\ (merge_exons [(0, 5); (5, 10)]).2 = Ok ([0; 5], [5; 10])
      /\ forall x, covered x [(0, 5); (5, 10)] <-> covered x [(0, 10)]).
Proof.
  split; split_and!; try (repeat constructor; unfold valid; simpl; lia);
    try by vm_compute.
  intros x. rewrite !covered_cons, covered_nil. simpl. lia.
Qed.

Lemma precedes_sorted (l : list exon) :
  Forall valid l -> Sorted precedes l -> Sorted exon_le l.
Proof.
  intros Hv Hs. induction Hs as [|a l Hs IH Hhd]; [constructor|].
  apply Forall_cons in Hv as [Ha Hv]. constructor; auto.
  destruct Hhd as [|b l Hab]; constructor.
  apply Forall_cons in Hv as [Hb _].
  unfold precedes, valid, exon_le in *. lia.
Qed.

Lemma sweep_runs_merged (rest : list exon) :
  forall cur : exon,
    valid cur -> Forall valid rest -> Sorted precedes (cur :: rest) ->
    sweep_runs cur cur.2 rest = cur :: rest.
Proof.
  induction rest as [|e rest IH]; intros cur Hc Hv Hs; [done|].
  apply Forall_cons in Hv as [He Hv].
  apply Sorted_inv in Hs as [Hs Hhd]. apply HdRel_inv in Hhd.
  unfold valid, precedes in Hc, He, Hhd. simpl.
  rewrite decide_False by lia.
  assert (Hls : (if decide (e.2 > cur.2) then e.2 else cur.2) = e.2)
    by (case_decide; lia).
  rewrite Hls, IH; auto.
Qed.

(** C5, for genomic coordinates: a list of intervals with
    [0 <= start <= stop < 2^63] that is in ascending order and pairwise
    non-overlapping is returned as it is, as its columns of starts and
    stops, and the list itself is left in the same order. *)
Theorem merge_exons_idempotent (exons : list exon) :
  Forall genomic exons ->
  StronglySorted precedes exons ->
  merge_exons exons = (exons, Ok (map fst exons, map snd exons)).
Proof.
  intros Hg Hs. apply StronglySorted_Sorted in Hs.
  assert (Hv : Forall valid exons)
    by (eapply Forall_impl; [exact Hg|apply genomic_valid]).
  rewrite merge_exons_runs, sort_id by by apply precedes_sorted.
  f_equal. destruct exons as [|e rest]; [done|].
  apply Forall_cons in Hg as [(He0 & He & Heb) Hg].
  apply Forall_cons in Hv as [_ Hv].
  simpl. rewrite decide_False by lia.
  assert (Hls : (if decide (e.2 > 0) then e.2 else 0) = e.2)
    by (case_decide; lia).
  rewrite Hls, sweep_runs_merged; auto.
Qed.

(** C5 on three merged genomic intervals, two of them touching. *)
Lemma merge_exons_idempotent_witness :
  merge_exons [(0, 5); (5, 10); (12, 20)]
  = ([(0, 5); (5, 10); (12, 20)], Ok ([0; 5; 12], [5; 10; 20])).
Proof.
  apply (merge_exons_idempotent [(0, 5); (5, 10); (12, 20)]).
  - repeat constructor; simpl; lia.
  - repeat constructor; unfold precedes; simpl; lia.
Defined.

(** C5, counterexample: a sorted, pairwise non-overlapping list of valid
    intervals that is not returned, because its first start is negative. *)
Lemma merge_exons_idempotent_negative :
  Forall valid [(-5, -3); (1, 2)]
  /\ StronglySorted precedes [(-5, -3); (1, 2)]
  /\ (merge_exons [(-5, -3); (1, 2)]).2 ≠ Ok ([-5; 1], [-3; 2]).
Proof.
  split_and!.
  - repeat constructor; unfold valid; simpl; lia.
  - repeat constructor; unfold precedes; simpl; lia.
  - vm_compute. discriminate.
Qed.

Lemma Sorted_pair {A} (R : relation A) (a b : A) : R a b -> Sorted R [a; b].
Proof. intros. apply Sorted_cons; [apply Sorted_cons|]; by constructor. Qed.

Lemma sort_pair (a b : exon) :
  sort [a; b] = if decide (exon_le a b) then [a; b] else [b; a].
Proof.
  case_decide as Hab.
  - apply sort_id. by apply Sorted_pair.
  - apply sort_unique; [|apply Permutation_swap].
    apply Sorted_pair. by destruct (total exon_le a b).
Qed.

Lemma merge_runs_pair (x y : exon) :
  genomic x -> genomic y -> exon_le x y ->
  merge_runs [x; y]
  = Ok (if decide (y.1 < x.2) then [(x.1, Z.max y.2 x.2)] else [x; y]).
Proof.
  intros (Hx0 & Hx & Hxb) (Hy0 & Hy & Hyb) Hxy. simpl.
  rewrite decide_False by lia.
  assert (Hls : (if decide (x.2 > 0) then x.2 else 0) = x.2)
    by (case_decide; lia).
  rewrite Hls. by case_decide.
Qed.

(** C4, for genomic coordinates [0 <= start <= stop < 2^63]: two
    intervals are merged into the one
    interval from the smaller start to the larger stop exactly when they
    strictly overlap; otherwise both are returned, in ascending order, and
    two touching intervals [a.2 = b.1] are returned unchanged. *)
Theorem merge_exons_strict_overlap (a b : exon) :
  genomic a -> genomic b ->
  (merge_exons [a; b]).2
  = (if decide (strictly_overlap a b)
     then Ok ([Z.min a.1 b.1], [Z.max a.2 b.2])
     else Ok (columns (sort [a; b])))
  /\ (a.2 = b.1 -> (merge_exons [a; b]).2 = Ok ([a.1; b.1], [a.2; b.2])).
Proof.
  intros Ha Hb.
  assert (Hmain : (merge_exons [a; b]).2
    = (if decide (strictly_overlap a b)
       then Ok ([Z.min a.1 b.1], [Z.max a.2 b.2])
       else Ok (columns (sort [a; b])))).
  { rewrite merge_exons_runs. cbn [snd]. rewrite sort_pair.
    destruct Ha as (Ha0 & Ha & Hab64), Hb as (Hb0 & Hb & Hbb64).
    destruct (decide (exon_le a b)) as [Hab|Hab].
    - rewrite merge_runs_pair by done. cbn [mbind result_bind].
      unfold strictly_overlap, exon_le, columns in *.
      rewrite (Z.min_l a.1 b.1), (Z.max_comm b.2 a.2) by lia.
      repeat case_decide; simpl; try done; lia.
    - assert (Hba : exon_le b a) by (destruct (total exon_le a b); done).
      rewrite merge_runs_pair by done. cbn [mbind result_bind].
      unfold strictly_overlap, exon_le, columns in *.
      rewrite (Z.min_r a.1 b.1) by lia.
      repeat case_decide; simpl; try done; lia. }
  split; [done|].
  intros Htouch. rewrite Hmain.
  destruct Ha as (Ha0 & Ha & Hab64), Hb as (Hb0 & Hb & Hbb64).
  rewrite decide_False by (unfold strictly_overlap; lia).
  rewrite sort_id; [done|].
  apply Sorted_pair. unfold exon_le. lia.
Qed.

(** C4, the two inputs of the claim: [(0,5), (5,10)] touch and are both
    kept, [(0,5), (3,10)] overlap and become [(0,10)]. *)
Lemma merge_exons_strict_overlap_witness :
  (merge_exons [(0, 5); (5, 10)]).2 = Ok ([0; 5], [5; 10])
  /\ (merge_exons [(0, 5); (3, 10)]).2 = Ok ([0], [10]).
Proof.
  split.
  - apply (merge_exons_strict_overlap (0, 5) (5, 10));
      unfold genomic; simpl; (lia || reflexivity).
  - exact (proj1 (merge_exons_strict_overlap (0, 5) (3, 10)
                    ltac:(unfold genomic; simpl; lia)
                    ltac:(unfold genomic; simpl; lia))).
Defined.

(** C4, counterexample: two valid intervals that strictly overlap and are
    not merged into one, the call raises because the first start is
    negative. *)
Lemma merge_exons_negative_overlap :
  valid (-5, -3) /\ valid (-4, -1)
  /\ strictly_overlap (-5, -3) (-4, -1)
  /\ (merge_exons [(-5, -3); (-4, -1)]).2 = Raise array_element_with_sequence.
Proof.
  split_and!; try (unfold valid; simpl; lia).
  - unfold strictly_overlap; simpl; lia.
  - by vm_compute.
Qed.

(** C9, as the code has it: [merge_exons] leaves the caller's list sorted
    in ascending tuple order. The list holds the same exons after the call
    as before, and it is unchanged exactly when it was sorted already;
    [Gene._reformat_exons] leaves its argument in the same state. *)
Theorem merge_exons_sorts_in_place (exons : list exon) :
  Sorted exon_le (merge_exons exons).1
  /\ (merge_exons exons).1 ≡ₚ exons
  /\ ((merge_exons exons).1 = exons <-> Sorted exon_le exons)
  /\ (Gene_reformat_exons exons).1 = (merge_exons exons).1.
Proof.
  unfold merge_exons, Gene_reformat_exons; simpl.
  split_and!; auto using sort_sorted, sort_perm.
  split; [intros <-; apply sort_sorted|apply sort_id].
Qed.

(** C9, counterexample: after [merge_exons] the caller's list
    [(5,6), (1,2)] is no longer what it was. *)
Lemma merge_exons_mutates_input :
  (merge_exons [(5, 6); (1, 2)]).1 ≠ [(5, 6); (1, 2)].
Proof. vm_compute. discriminate. Qed.

(** ** The walk of _intron_intervals_from_exons *)

Lemma inverted_not_need_merging : inverted_exon ≠ exons_need_merging.
Proof. discriminate. Qed.

Lemma walk_body_inverted (e : exon) (w : walk) :
  e.2 < e.1 -> walk_body e w = Raise inverted_exon.
Proof. intros H. destruct e as [s t]; simpl in *. by rewrite decide_True. Qed.

Lemma walk_body_overlap (e : exon) (w : walk) :
  e.1 <= e.2 -> e.1 < intron_start w -> walk_body e w = Raise exons_need_merging.
Proof.
  intros H1 H2. destruct e as [s t]; simpl in *.
  rewrite decide_False, decide_True, decide_True by lia. done.
Qed.

Lemma walk_body_ok (e : exon) (w : walk) :
  e.1 <= e.2 -> intron_start w <= e.1 ->
  walk_body e w
  = Ok (Walk e.2 (res w ++ gap (intron_start w) e.1) (S (exon_no w))).
Proof.
  intros H1 H2. destruct e as [s t]; simpl in *. unfold gap.
  rewrite decide_False by lia.
  destruct (decide (intron_start w ≠ s)) as [Hne|Heq].
  - rewrite decide_False, decide_True by lia. done.
  - rewrite decide_False by lia. simpl. by rewrite app_nil_r.
Qed.

(** The three outcomes of one step of the walk. *)
Lemma walk_body_cases (e : exon) (w : walk) :
  (e.2 < e.1 /\ walk_body e w = Raise inverted_exon)
  \/ (e.1 <= e.2 /\ e.1 < intron_start w
      /\ walk_body e w = Raise exons_need_merging)
  \/ (e.1 <= e.2 /\ intron_start w <= e.1
      /\ walk_body e w
         = Ok (Walk e.2 (res w ++ gap (intron_start w) e.1) (S (exon_no w)))).
Proof.
  destruct (decide (e.2 < e.1)); [left; auto using walk_body_inverted|].
  destruct (decide (e.1 < intron_start w)).
  - right; left. split_and!; [lia|done|apply walk_body_overlap; lia].
  - right; right. split_and!; [lia|lia|apply walk_body_ok; lia].
Qed.

Lemma walk_loop_app (pre suf : list exon) (w : walk) :
  walk_loop (pre ++ suf) w = (w' ← walk_loop pre w; walk_loop suf w').
Proof.
  revert w. induction pre as [|e pre IH]; intros w; simpl; [done|].
  destruct (walk_body e w) as [w1|ex]; simpl; auto.
Qed.

Lemma cursor_after_cons (c : Z) (e : exon) (rest : list exon) :
  cursor_after c (e :: rest) = cursor_after e.2 rest.
Proof.
  unfold cursor_after. cbn [map]. rewrite last_cons.
  by destruct (last (map snd rest)).
Qed.

Lemma walk_loop_chain (exons : list exon) :
  forall (c : Z) (r : list exon) (n : nat),
    chain c exons ->
    walk_loop exons (Walk c r n)
    = Ok (Walk (cursor_after c exons) (r ++ gaps_from c exons)
            (n + length exons)).
Proof.
  induction exons as [|e rest IH]; intros c r n Hch; simpl.
  - unfold cursor_after; simpl. by rewrite app_nil_r, Nat.add_0_r.
  - destruct Hch as (Hc & He & Hch).
    rewrite walk_body_ok by done. simpl.
    rewrite IH by done. rewrite cursor_after_cons, app_assoc.
    do 2 f_equal. lia.
Qed.

Lemma walk_loop_ok_chain (exons : list exon) :
  forall (w w' : walk), walk_loop exons w = Ok w' -> chain (intron_start w) exons.
Proof.
  induction exons as [|e rest IH]; intros w w' Hok; simpl in *; [done|].
  destruct (walk_body_cases e w) as [[_ H]|[(_ & _ & H)|(H1 & H2 & H)]];
    rewrite H in Hok; simpl in Hok; try discriminate.
  split_and!; auto. by apply IH in Hok.
Qed.

(** The walk raises the merge error exactly at a well-formed exon that
    starts below the cursor. *)
Lemma walk_loop_need_merging (exons : list exon) :
  forall w : walk,
    walk_loop exons w = Raise exons_need_merging
    <-> exists pre e suf w',
          exons = pre ++ e :: suf /\ walk_loop pre w = Ok w'
          /\ e.1 <= e.2 /\ e.1 < intron_start w'.
Proof.
  induction exons as [|e rest IH]; intros w.
  - simpl. split; [discriminate|].
    intros (pre & e & suf & w' & Heq & _). by destruct pre.
  - simpl. split.
    + intros Hr.
      destruct (walk_body_cases e w) as [[_ H]|[(H1 & H2 & H)|(H1 & H2 & H)]];
        rewrite H in Hr; simpl in Hr.
      * by inversion Hr.
      * exists [], e, rest, w. by split_and!.
      * apply IH in Hr as (pre & e' & suf & w' & -> & Hpre & He' & Hlt).
        exists (e :: pre), e', suf, w'. split_and!; auto.
        simpl. by rewrite H.
    + intros (pre & e' & suf & w' & Heq & Hpre & He' & Hlt).
      destruct pre as [|e0 pre]; simplify_eq/=.
      * by rewrite walk_body_overlap.
      * destruct (walk_body e0 w) as [w1|ex]; simpl in *; [|done].
        apply IH. by exists pre, e', suf, w'.
Qed.

(** Reaching an inverted exon raises [inverted_exon]. *)
Lemma walk_loop_inverted (pre suf : list exon) (e : exon) (w w' : walk) :
  walk_loop pre w = Ok w' -> e.2 < e.1 ->
  walk_loop (pre ++ e :: suf) w = Raise inverted_exon.
Proof.
  intros Hpre He. rewrite walk_loop_app, Hpre. simpl.
  by rewrite walk_body_inverted.
Qed.

(** No list with an inverted exon is walked to the end. *)
Lemma walk_loop_inverted_raises (exons : list exon) (e : exon) :
  e ∈ exons -> e.2 < e.1 ->
  forall w, exists ex, walk_loop exons w = Raise ex.
Proof.
  intros Hin He w. destruct (walk_loop exons w) as [w'|ex] eqn:Hw; [|eauto].
  exfalso. apply walk_loop_ok_chain in Hw. revert Hin Hw. generalize (intron_start w).
  induction exons as [|e0 rest IH]; intros c Hin Hch.
  - by apply elem_of_nil in Hin.
  - destruct Hch as (_ & He0 & Hch).
    apply elem_of_cons in Hin as [->|Hin]; [lia|eauto].
Qed.

Lemma intron_intervals_no_merge mi (exons : list exon) (gene_start gene_stop : Z) :
  _intron_intervals_from_exons mi exons gene_start gene_stop false
  = (w ← walk_loop exons (Walk gene_start [] 0);
     Ok (res w ++ gap (intron_start w) gene_stop)).
Proof.
  unfold _intron_intervals_from_exons. simpl.
  destruct (walk_loop exons _) as [w|ex]; simpl; [|done].
  unfold gap. case_decide; [done|by rewrite app_nil_r].
Qed.

(** ** The gaps *)

Lemma gaps_between_from (e : exon) (rest : list exon) :
  gaps_between (e :: rest) = gaps_from e.2 rest.
Proof.
  revert e. induction rest as [|e' rest IH]; intros e; [done|].
  change (gaps_between (e :: e' :: rest))
    with (gap e.2 e'.1 ++ gaps_between (e' :: rest)).
  by rewrite IH.
Qed.

Lemma complementary_gaps_from (rs re : Z) (exons : list exon) :
  complementary_gaps rs exons re
  = gaps_from rs exons ++ gap (cursor_after rs exons) re.
Proof.
  destruct exons as [|e rest]; [done|].
  unfold complementary_gaps. rewrite gaps_between_from. simpl.
  by rewrite <- app_assoc.
Qed.

Lemma sorted_chain (exons : list exon) :
  forall c : Z,
    Forall valid exons -> Sorted precedes exons ->
    (forall e, head exons = Some e -> c <= e.1) ->
    chain c exons.
Proof.
  induction exons as [|e rest IH]; intros c Hv Hs Hc; simpl; [done|].
  apply Forall_cons in Hv as [He Hv]. apply Sorted_inv in Hs as [Hs Hhd].
  split_and!; auto. apply IH; auto.
  intros e' He'. destruct rest; simplify_eq/=.
  apply HdRel_inv in Hhd. unfold precedes in Hhd. lia.
Qed.

Lemma inside_chain (rs re : Z) (exons : list exon) :
  Forall (inside rs re) exons -> Sorted precedes exons -> chain rs exons.
Proof.
  intros Hin Hs. apply sorted_chain; auto.
  - eapply Forall_impl; [exact Hin|]. unfold inside, valid. tauto.
  - intros e He. destruct exons; simplify_eq/=.
    apply Forall_cons in Hin as [(? & _) _]. done.
Qed.

(** Along a chain every exon and every gap lies at or after the cursor. *)
Lemma chain_lower (exons : list exon) :
  forall c : Z, chain c exons -> Forall (fun e => c <= e.1 /\ e.1 <= e.2) exons.
Proof.
  induction exons as [|e rest IH]; intros c Hch; [constructor|].
  destruct Hch as (Hc & He & Hch). constructor; [done|].
  eapply Forall_impl; [apply IH, Hch|]. simpl. intros; lia.
Qed.

Lemma covered_gap (x a b : Z) : covered x (gap a b) <-> a <= x < b.
Proof.
  unfold gap. case_decide.
  - rewrite covered_cons, covered_nil. simpl. tauto.
  - rewrite covered_nil. lia.
Qed.

(** The gaps are exactly the part of the region from the cursor on that no
    exon covers, and they come in ascending order without touching an
    exon. *)
Lemma gaps_from_spec (re : Z) (exons : list exon) :
  forall c : Z,
    chain c exons -> Forall (fun e => e.2 <= re) exons ->
    Forall (fun g => c <= g.1 /\ g.1 < g.2 /\ g.2 <= re)
      (gaps_from c exons ++ gap (cursor_after c exons) re)
    /\ Sorted precedes (gaps_from c exons ++ gap (cursor_after c exons) re)
    /\ (forall x, c <= x < re ->
          (covered x (gaps_from c exons ++ gap (cursor_after c exons) re)
           <-> ~ covered x exons)).
Proof.
  induction exons as [|e rest IH]; intros c Hch Hre; simpl.
  - unfold cursor_after in *; simpl in *. split_and!.
    + unfold gap. case_decide; repeat constructor; simpl; lia.
    + unfold gap. case_decide; repeat constructor.
    + intros x Hx. rewrite covered_gap, covered_nil. tauto.
  - destruct Hch as (Hc & He & Hch). rewrite cursor_after_cons in *.
    apply Forall_cons in Hre as [Hre1 Hre].
    destruct (IH e.2 Hch Hre) as (Hall & Hsort & Hcov).
    pose proof (chain_lower _ _ Hch) as Hlow.
    split_and!.
    + rewrite <- app_assoc. apply Forall_app. split.
      * unfold gap. case_decide; repeat constructor; simpl; lia.
      * eapply Forall_impl; [exact Hall|]. simpl. intros; lia.
    + rewrite <- app_assoc. unfold gap at 1. case_decide; [|done]. simpl.
      constructor; [done|].
      destruct Hall as [|g gs Hg _]; constructor.
      unfold precedes; simpl. lia.
    + intros x Hx. rewrite <- app_assoc, covered_app, covered_gap, covered_cons.
      destruct (decide (x < e.2)) as [Hlt|Hge].
      * assert (Hno : ~ covered x (gaps_from e.2 rest ++ gap (cursor_after e.2 rest) re)).
        { intros (g & Hg & Hxg).
          rewrite Forall_forall in Hall. apply Hall in Hg. simpl in Hg. lia. }
        assert (Hno' : ~ covered x rest).
        { intros (g & Hg & Hxg).
          rewrite Forall_forall in Hlow. apply Hlow in Hg. simpl in Hg. lia. }
        split; [intros [?|?]; [|done]|]; intuition lia.
      * rewrite Hcov by lia. intuition lia.
Qed.

(** ** Introns *)

Lemma intron_intervals_chain mi (exons : list exon) (rs re : Z) :
  chain rs exons ->
  _intron_intervals_from_exons mi exons rs re false
  = Ok (complementary_gaps rs exons re).
Proof.
  intros Hch. rewrite intron_intervals_no_merge, walk_loop_chain by done.
  simpl. by rewrite complementary_gaps_from.
Qed.

(** X17. With [merge] false: for exons in ascending order, pairwise
    non-overlapping and each inside the region, the walk returns the
    complementary gaps: the leading gap, one gap between each two
    consecutive exons that do not touch, the trailing gap. The gaps are in
    ascending order, none is empty, all lie in the region, and a coordinate
    of the region lies in a gap exactly when no exon covers it. *)
Theorem introns_are_complementary_gaps mi (exons : list exon)
    (region_start region_stop : Z) :
  Forall (inside region_start region_stop) exons ->
  StronglySorted precedes exons ->
  _intron_intervals_from_exons mi exons region_start region_stop false
  = Ok (complementary_gaps region_start exons region_stop)
  /\ Sorted precedes (complementary_gaps region_start exons region_stop)
  /\ Forall (fun g => region_start <= g.1 /\ g.1 < g.2 /\ g.2 <= region_stop)
       (complementary_gaps region_start exons region_stop)
  /\ (forall x, region_start <= x < region_stop ->
        (covered x (complementary_gaps region_start exons region_stop)
         <-> ~ covered x exons)).
Proof.
  intros Hin Hs. apply StronglySorted_Sorted in Hs.
  pose proof (inside_chain _ _ _ Hin Hs) as Hch.
  assert (Hre : Forall (fun e => e.2 <= region_stop) exons).
  { eapply Forall_impl; [exact Hin|]. unfold inside. tauto. }
  destruct (gaps_from_spec region_stop exons region_start Hch Hre)
    as (Hall & Hsort & Hcov).
  rewrite complementary_gaps_from.
  split_and!; auto.
  rewrite <- complementary_gaps_from. by apply intron_intervals_chain.
Qed.

(** X17 on the region [0,100) with exons [(10,20), (50,60)], and on the
    fully covered region [0,10). *)
Lemma introns_are_complementary_gaps_witness :
  _intron_intervals_from_exons no_merge [(10, 20); (50, 60)] 0 100 false
  = Ok [(0, 10); (20, 50); (60, 100)]
  /\ _intron_intervals_from_exons no_merge [(0, 10)] 0 10 false = Ok [].
Proof.
  split.
  - apply (introns_are_complementary_gaps no_merge [(10, 20); (50, 60)] 0 100).
    + repeat constructor; simpl; lia.
    + repeat constructor; unfold precedes; simpl; lia.
  - apply (introns_are_complementary_gaps no_merge [(0, 10)] 0 10).
    + repeat constructor; simpl; lia.
    + repeat constructor.
Defined.

(** C3, at the failing input. The empty exon list is in ascending order,
    non-overlapping and inside every region; with [merge] true the call
    raises IndexError at [zip_exons[0]], whatever [merge_intervals] is,
    where the gap from the region's start to its stop is due, which is
    what the call returns with [merge] false. *)
Lemma intron_intervals_empty_merge_raises :
  StronglySorted precedes []
  /\ Forall (inside 0 100) []
  /\ (forall mi, _intron_intervals_from_exons mi [] 0 100 true
                 = Raise list_index_out_of_range)
  /\ (forall mi, _intron_intervals_from_exons mi [] 0 100 false
                 = Ok [(0, 100)]).
Proof. split_and!; try constructor; done. Qed.

(** C6, as the code has it: with [merge] false the merge error is raised
    exactly when the walk reaches an exon that is not inverted and whose
    start is below the cursor [intron_start]; an inverted exon that is
    reached raises [inverted_exon], below the cursor or not. The exons
    [(0,10), (5,15)] raise the merge error whatever the region is. *)
Theorem overlapping_exons_raise mi (exons : list exon) (gene_start gene_stop : Z) :
  (_intron_intervals_from_exons mi exons gene_start gene_stop false
   = Raise exons_need_merging
   <-> exists pre e suf w,
         exons = pre ++ e :: suf
         /\ walk_loop pre (Walk gene_start [] 0) = Ok w
         /\ e.1 <= e.2
         /\ e.1 < intron_start w)
  /\ (forall pre e suf w,
        exons = pre ++ e :: suf ->
        walk_loop pre (Walk gene_start [] 0) = Ok w ->
        e.2 < e.1 ->
        _intron_intervals_from_exons mi exons gene_start gene_stop false
        = Raise inverted_exon)
  /\ _intron_intervals_from_exons mi [(0, 10); (5, 15)] gene_start gene_stop false
     = Raise exons_need_merging.
Proof.
  split_and!.
  - rewrite intron_intervals_no_merge, <- walk_loop_need_merging.
    destruct (walk_loop exons _) as [w|ex]; simpl; [split; discriminate|].
    split; intros [= ->]; done.
  - intros pre e suf w -> Hpre He.
    by rewrite intron_intervals_no_merge, (walk_loop_inverted pre suf e _ w).
  - rewrite intron_intervals_no_merge. simpl.
    destruct (decide (gene_start ≠ 0)); repeat case_decide; simpl; try done; lia.
Qed.

(** C6, counterexample: the walk over [(0,10), (5,3)] reaches the exon
    [(5,3)], whose start 5 is below the cursor 10, and the error raised is
    not the merge error but [inverted_exon]. *)
Lemma inverted_exon_below_cursor :
  (exists pre e suf w,
      [(0, 10); (5, 3)] = pre ++ e :: suf
      /\ walk_loop pre (Walk 0 [] 0) = Ok w
      /\ e.1 < intron_start w)
  /\ _intron_intervals_from_exons no_merge [(0, 10); (5, 3)] 0 20 false
     = Raise inverted_exon
  /\ inverted_exon ≠ exons_need_merging.
Proof.
  split_and!.
  - exists [(0, 10)], (5, 3), [], (Walk 10 [] 1). split_and!; [done|done|simpl; lia].
  - done.
  - discriminate.
Qed.

(** C7, as the code has it: with [merge] false a list with an inverted
    exon never yields introns, and when the walk gets through the exons
    before it, the error is [inverted_exon]; [merge_exons] does not check,
    it returns an inverted interval that starts at or after 0 as it is. *)
Theorem inverted_exon_raises mi (pre suf : list exon) (e : exon)
    (gene_start gene_stop : Z) :
  e.2 < e.1 ->
  (exists ex,
      _intron_intervals_from_exons mi (pre ++ e :: suf) gene_start gene_stop false
      = Raise ex)
  /\ (forall w, walk_loop pre (Walk gene_start [] 0) = Ok w ->
        _intron_intervals_from_exons mi (pre ++ e :: suf) gene_start gene_stop false
        = Raise inverted_exon)
  /\ (0 <= e.1 -> (merge_exons [e]).2 = Ok ([e.1], [e.2])).
Proof.
  intros He. rewrite intron_intervals_no_merge. split_and!.
  - destruct (walk_loop_inverted_raises (pre ++ e :: suf) e)
      with (w := Walk gene_start [] 0) as [ex Hex]; [|done|].
    + apply elem_of_app. right. apply elem_of_cons. by left.
    + exists ex. by rewrite Hex.
  - intros w Hw. by rewrite (walk_loop_inverted pre suf e _ w).
  - intros He0. rewrite merge_exons_runs. cbn [snd].
    rewrite sort_id by (repeat constructor). simpl.
    by rewrite decide_False by lia.
Qed.

(** C7, the exon [(10, 5)] of the claim. *)
Lemma inverted_exon_raises_witness :
  _intron_intervals_from_exons no_merge [(10, 5)] 0 100 false
  = Raise inverted_exon.
Proof.
  apply (proj1 (proj2 (inverted_exon_raises no_merge [] [] (10, 5) 0 100
                         ltac:(simpl; lia))) (Walk 0 [] 0)).
  reflexivity.
Defined.

(** C7, counterexample: [merge_exons] checks nothing and returns the
    inverted interval [(10, 5)] as output. *)
Lemma merge_exons_keeps_inverted :
  (10, 5).2 < (10, 5).1
  /\ merge_exons [(10, 5)] = ([(10, 5)], Ok ([10], [5])).
Proof. split; [simpl; lia|by vm_compute]. Qed.

Lemma Transcript_exons_tuples_id (tr : Transcript.t) :
  Transcript_exons_tuples tr = Transcript.exons tr.
Proof.
  unfold Transcript_exons_tuples. induction (Transcript.exons tr) as [|[s t] l IH];
    simpl; by rewrite ?IH.
Qed.



(** C10: a transcript without exons reports the whole span of its gene as
    its only intron when the gene's start is below its stop, and no intron
    when start and stop are equal; no error is raised. *)
Theorem Transcript_introns_no_exons mi (tr : Transcript.t) :
  Transcript.exons tr = [] ->
  (Gene.start (Transcript.gene tr) < Gene.stop (Transcript.gene tr) ->
   Transcript_introns mi tr
   = Ok [(Gene.start (Transcript.gene tr), Gene.stop (Transcript.gene tr))])
  /\ (Gene.start (Transcript.gene tr) = Gene.stop (Transcript.gene tr) ->
      Transcript_introns mi tr = Ok []).
Proof.
  intros Hex. unfold Transcript_introns.
  rewrite Transcript_exons_tuples_id, Hex.
  change (sort []) with (@nil exon).
  unfold _intron_intervals_from_exons. simpl.
  split; intros H; case_decide; try done; lia.
Qed.

(** C10 on a gene spanning [0, 100) and on a gene with start = stop. *)
Lemma Transcript_introns_no_exons_witness :
  Transcript_introns no_merge transcript_T2 = Ok [(0, 100)]
  /\ Transcript_introns no_merge transcript_T3 = Ok [].
Proof.
  split.
  - apply (proj1 (Transcript_introns_no_exons no_merge transcript_T2 eq_refl)).
    simpl. lia.
  - apply (proj2 (Transcript_introns_no_exons no_merge transcript_T3 eq_refl)).
    reflexivity.
Defined.

(** X18. For a gene with an empty list of transcripts [exons_merged]
    returns a pair of empty arrays. *)
Theorem Gene_exons_merged_no_transcripts (g : Gene) :
  transcripts g = Some [] -> Gene_exons_merged g = Ok ([], []).
Proof.
  intros Htr. unfold Gene_exons_merged, Gene_exons, iter_transcripts.
  by rewrite Htr.
Qed.

(** X18 on [gene_G1] without transcripts. *)
Lemma Gene_exons_merged_no_transcripts_witness :
  Gene_exons_merged gene_without_transcripts = Ok ([], []).
Proof. apply Gene_exons_merged_no_transcripts. reflexivity. Defined.

(** With no exon [zip_exons] is the empty list and [zip_exons[0]]
    raises before [merge_intervals] is called. *)
Lemma Gene_introns_no_transcripts mi (g : Gene) :
  transcripts g = Some [] -> Gene_introns mi g = Raise list_index_out_of_range.
Proof.
  intros Htr. unfold Gene_introns, iter_transcripts. by rewrite Htr.
Qed.

(** C2, at the failing input: for [gene_G1] with an empty list of
    transcripts [introns] raises IndexError, whatever [merge_intervals]
    is, where an empty result is due. *)
Lemma Gene_introns_no_transcripts_raise :
  transcripts gene_without_transcripts = Some []
  /\ forall mi, Gene_introns mi gene_without_transcripts
                = Raise list_index_out_of_range.
Proof. split; [done|]. intros mi. by apply Gene_introns_no_transcripts. Qed.

(** * Further properties *)

(** ** merge_exons: when it raises *)

(** The first exon of a sorted list has the smallest start. *)
Lemma sorted_head_min (e : exon) (rest : list exon) :
  Sorted exon_le (e :: rest) -> Forall (fun e' => e.1 <= e'.1) (e :: rest).
Proof.
  intros Hs. apply (Sorted_weaken _ by_start) in Hs; [|apply exon_le_by_start].
  assert (Transitive by_start) by (intros ???; unfold by_start; lia).
  apply Sorted_StronglySorted in Hs; [|done].
  apply StronglySorted_inv in Hs as [_ Hall].
  constructor; [lia|done].
Qed.

Lemma sort_nil_inv (l : list exon) : sort l = [] -> l = [].
Proof. intros H. apply Permutation_nil. by rewrite <- (sort_perm l), H. Qed.

Lemma sort_length (l : list exon) : length (sort l) = length l.
Proof. apply Permutation_length, sort_perm. Qed.

(** X1. For coordinates that an int64 array holds: [merge_exons] returns
    whenever no start is negative, whatever the stops are; with two or
    more exons it raises exactly when some start is negative, and what it
    raises is numpy's ValueError for storing an array into one element,
    never an index error. *)
Theorem merge_exons_raises (exons : list exon) :
  Forall int64 exons ->
  (Forall (fun e => 0 <= e.1) exons ->
   exists out, (merge_exons exons).2 = Ok out)
  /\ ((2 <= length exons)%nat ->
      ((merge_exons exons).2 = Raise array_element_with_sequence
       <-> exists e, e ∈ exons /\ e.1 < 0)
      /\ (forall ex, (merge_exons exons).2 = Raise ex ->
            ex = array_element_with_sequence)).
Proof.
  intros _. rewrite merge_exons_runs. cbn [snd].
  pose proof (sort_sorted exons) as Hs.
  pose proof (sort_length exons) as Hlen.
  assert (Hin : forall e, e ∈ sort exons <-> e ∈ exons)
    by (intros e; by rewrite (sort_perm exons)).
  destruct (sort exons) as [|e rest] eqn:Hsort.
  - apply sort_nil_inv in Hsort as ->. simpl. split; [eauto|lia].
  - pose proof (sorted_head_min e rest Hs) as Hmin.
    rewrite Forall_forall in Hmin.
    unfold merge_runs. destruct (decide (e.1 < 0)) as [Hneg|Hpos].
    + assert (He : e ∈ exons) by (apply Hin; left).
      destruct rest as [|e' rest]; simpl in *.
      * split; [eauto|lia].
      * split.
        -- intros Hall. rewrite Forall_forall in Hall. apply Hall in He. lia.
        -- intros _. split; [split; eauto|]. by intros ex [= <-].
    + simpl. split; [eauto|].
      intros _. split; [|discriminate]. split; [discriminate|].
      intros (e' & He' & Hlt). apply Hin, Hmin in He'. lia.
Qed.

(** X1 on a list with an inverted exon and no negative start, and on a
    list with a negative start. *)
Lemma merge_exons_raises_witness :
  (exists out, (merge_exons [(3, 1); (0, 7)]).2 = Ok out)
  /\ (merge_exons [(4, 6); (-2, 3)]).2 = Raise array_element_with_sequence.
Proof.
  split.
  - apply (merge_exons_raises [(3, 1); (0, 7)]).
    + repeat constructor; simpl; lia.
    + repeat constructor; simpl; lia.
  - apply (proj1 (proj2 (merge_exons_raises [(4, 6); (-2, 3)]
                           ltac:(repeat constructor; simpl; lia))
                    ltac:(simpl; lia))).
    exists (-2, 3). split; [|simpl; lia].
    apply elem_of_cons. right. apply elem_of_cons. by left.
Defined.

(** ** merge_exons: the order of the input *)

Lemma sort_permutation (l l' : list exon) : l ≡ₚ l' -> sort l = sort l'.
Proof.
  intros Hp. apply sort_unique; [apply sort_sorted|].
  by rewrite sort_perm.
Qed.

(** X2. The order of the input does not matter: two lists with the same
    exons give the same result and are left in the same sorted state, by
    [merge_exons] and by [Gene._reformat_exons]. *)
Theorem merge_exons_permutation (exons exons' : list exon) :
  exons ≡ₚ exons' ->
  merge_exons exons = merge_exons exons'
  /\ Gene_reformat_exons exons = Gene_reformat_exons exons'.
Proof.
  intros Hp. unfold merge_exons, Gene_reformat_exons.
  by rewrite (sort_permutation _ _ Hp).
Qed.

(** X2 on three exons rotated. *)
Lemma merge_exons_permutation_witness :
  merge_exons [(3, 10); (0, 5); (12, 13)] = merge_exons [(12, 13); (3, 10); (0, 5)].
Proof.
  apply (merge_exons_permutation [(3, 10); (0, 5); (12, 13)]
           [(12, 13); (3, 10); (0, 5)]).
  change ([(3, 10); (0, 5)] ++ [(12, 13)] ≡ₚ [(12, 13)] ++ [(3, 10); (0, 5)]).
  apply Permutation_app_comm.
Defined.

(** ** merge_exons: where the output coordinates come from *)

Lemma sweep_runs_coordinates (rest : list exon) :
  forall cur : exon,
    valid cur -> Forall valid rest ->
    Forall (fun r => r.1 ∈ cur.1 :: map fst rest
                     /\ r.2 ∈ cur.2 :: map snd rest)
      (sweep_runs cur cur.2 rest).
Proof.
  induction rest as [|e rest IH]; intros [c1 c2] Hc Hv; simpl in *.
  - repeat constructor.
  - apply Forall_cons in Hv as [He Hv]. unfold valid in Hc, He; simpl in *.
    destruct (decide (e.1 < c2)) as [Hlt|Hge].
    + assert (Hls : (if decide (Z.max e.2 c2 > c2) then Z.max e.2 c2 else c2)
                    = Z.max e.2 c2) by (case_decide; lia).
      rewrite Hls.
      specialize (IH (c1, Z.max e.2 c2)). simpl in IH.
      eapply Forall_impl; [apply IH; [unfold valid; simpl; lia|done]|].
      intros r [H1 H2]. split.
      * apply elem_of_cons in H1 as [->|H1]; [left|right; right; done].
      * apply elem_of_cons in H2 as [->|H2]; [|right; right; done].
        destruct (Z.max_spec e.2 c2) as [[_ ->]|[_ ->]]; [left|right; left].
    + assert (Hls : (if decide (e.2 > c2) then e.2 else c2) = e.2)
        by (case_decide; lia).
      rewrite Hls. constructor.
      * split; left.
      * eapply Forall_impl; [apply (IH e); done|].
        intros r [H1 H2]. split; right; done.
Qed.

Lemma merge_runs_coordinates (l out : list exon) :
  Forall genomic l -> merge_runs l = Ok out ->
  Forall (fun r => r.1 ∈ map fst l /\ r.2 ∈ map snd l) out.
Proof.
  intros Hg Hout. destruct l as [|e rest]; simpl in *.
  - by simplify_eq.
  - apply Forall_cons in Hg as [(He0 & He & Heb) Hg].
    rewrite decide_False in Hout by lia.
    assert (Hls : (if decide (e.2 > 0) then e.2 else 0) = e.2)
      by (case_decide; lia).
    rewrite Hls in Hout. simplify_eq.
    apply sweep_runs_coordinates; [done|].
    eapply Forall_impl; [exact Hg|apply genomic_valid].
Qed.

Lemma elem_of_map_perm (f : exon -> Z) (l l' : list exon) (x : Z) :
  l ≡ₚ l' -> x ∈ map f l -> x ∈ map f l'.
Proof. intros Hp. by rewrite Hp. Qed.

(** X4. On genomic exons, [0 <= start <= stop < 2^63], [merge_exons]
    invents no coordinate: every start
    it returns is the start of an input exon and every stop it returns is
    the stop of an input exon. *)
Theorem merge_exons_coordinates (exons : list exon) (starts stops : list Z) :
  Forall genomic exons ->
  (merge_exons exons).2 = Ok (starts, stops) ->
  Forall (fun s => s ∈ map fst exons) starts
  /\ Forall (fun t => t ∈ map snd exons) stops.
Proof.
  intros Hg. rewrite merge_exons_runs. cbn [snd].
  destruct (merge_runs (sort exons)) as [out|ex] eqn:Hout; [|discriminate].
  intros [= <- <-].
  apply merge_runs_coordinates in Hout; [|by apply sort_Forall].
  split; apply Forall_fmap; (eapply Forall_impl; [exact Hout|]);
    intros r [H1 H2]; simpl;
    eapply elem_of_map_perm; eauto using sort_perm.
Qed.

(** X4 on four exons that merge into two. *)
Lemma merge_exons_coordinates_witness :
  Forall (fun s => s ∈ map fst [(7, 9); (3, 10); (0, 5); (20, 30)]) [0; 20]
  /\ Forall (fun t => t ∈ map snd [(7, 9); (3, 10); (0, 5); (20, 30)]) [10; 30].
Proof.
  apply (merge_exons_coordinates [(7, 9); (3, 10); (0, 5); (20, 30)]).
  - repeat constructor; simpl; lia.
  - by vm_compute.
Defined.

(** ** merge_exons: merging what was merged *)

Lemma merge_runs_genomic_out (l : list exon) :
  Forall genomic l -> Sorted exon_le l ->
  exists out,
    merge_runs l = Ok out /\ Forall genomic out /\ Sorted precedes out
    /\ (forall x, covered x out <-> covered x l).
Proof.
  intros Hg Hs.
  destruct (merge_runs_genomic l Hg Hs) as (out & Hout & Hval & Hsort & Hcov & _).
  exists out. split_and!; auto.
  pose proof (merge_runs_coordinates l out Hg Hout) as Hco.
  rewrite Forall_forall in Hco, Hval, Hg. apply Forall_forall.
  intros r Hr. destruct (Hco r Hr) as [H1 H2].
  apply list_elem_of_fmap in H1 as (e1 & H1 & He1).
  apply list_elem_of_fmap in H2 as (e2 & H2 & He2).
  apply Hg in He1, He2. apply Hval in Hr.
  unfold genomic, valid in *. lia.
Qed.

(** X3. Merging twice is merging once: on genomic exons,
    [0 <= start <= stop < 2^63], the intervals
    [merge_exons] returns are returned unchanged when they are merged
    again. *)
Theorem merge_exons_twice (exons : list exon) (starts stops : list Z) :
  Forall genomic exons ->
  (merge_exons exons).2 = Ok (starts, stops) ->
  merge_exons (zip starts stops) = (zip starts stops, Ok (starts, stops)).
Proof.
  intros Hg. rewrite merge_exons_runs. cbn [snd].
  destruct (merge_runs_genomic_out (sort exons)) as (out & -> & Hgo & Hso & _);
    [by apply sort_Forall|apply sort_sorted|].
  intros [= <- <-]. rewrite zip_fst_snd.
  assert (Hv : Forall valid out)
    by (eapply Forall_impl; [exact Hgo|apply genomic_valid]).
  rewrite merge_exons_runs, sort_id by by apply precedes_sorted.
  f_equal. destruct out as [|e rest]; [done|].
  apply Forall_cons in Hgo as [(He0 & He & Heb) Hgo].
  apply Forall_cons in Hv as [_ Hv].
  simpl. rewrite decide_False by lia.
  assert (Hls : (if decide (e.2 > 0) then e.2 else 0) = e.2)
    by (case_decide; lia).
  rewrite Hls, sweep_runs_merged; auto.
Qed.

(** X3 on the result for five exons. *)
Lemma merge_exons_twice_witness :
  merge_exons (zip [0; 12; 20] [10; 13; 30])
  = (zip [0; 12; 20] [10; 13; 30], Ok ([0; 12; 20], [10; 13; 30])).
Proof.
  apply (merge_exons_twice [(7, 9); (3, 10); (0, 5); (20, 30); (12, 13)]).
  - repeat constructor; simpl; lia.
  - by vm_compute.
Defined.

(** ** Gene: the exon properties *)

Lemma foldl_extend (trs : list Transcript.t) (acc : list exon) :
  foldl (fun exons tr => exons ++ Transcript.exons tr) acc trs
  = acc ++ all_exons trs.
Proof.
  revert acc. induction trs as [|tr trs IH]; intros acc; simpl.
  - by rewrite app_nil_r.
  - rewrite IH. unfold all_exons. simpl. by rewrite app_assoc.
Qed.

Lemma foldl_extend_protein_coding (trs : list Transcript.t) (acc : list exon) :
  foldl (fun exons tr =>
           if decide (Transcript.biotype tr = "protein_coding")
           then exons ++ Transcript.exons tr else exons) acc trs
  = acc ++ all_exons (filter protein_coding trs).
Proof.
  revert acc. induction trs as [|tr trs IH]; intros acc; simpl.
  - by rewrite app_nil_r.
  - rewrite IH. rewrite filter_cons. unfold protein_coding at 2.
    destruct (decide (Transcript.biotype tr = "protein_coding")); [|done].
    unfold all_exons. simpl. by rewrite app_assoc.
Qed.

Lemma Gene_exons_all (g : Gene) (trs : list Transcript.t) :
  transcripts g = Some trs -> Gene_exons g = Ok (all_exons trs).
Proof.
  intros Htr. unfold Gene_exons, iter_transcripts. rewrite Htr. simpl.
  by rewrite foldl_extend.
Qed.

(** X5. A gene whose [transcripts] is still [None], the default of the
    class, raises TypeError in each of its exon and intron properties. *)
Theorem Gene_transcripts_unset_raise mi (g : Gene) :
  transcripts g = None ->
  Gene_exons_merged g = Raise none_not_iterable
  /\ Gene_exons_overlapping g = Raise none_not_iterable
  /\ Gene_exons_protein_coding_merged g = Raise none_not_iterable
  /\ Gene_exons_protein_coding_overlapping g = Raise none_not_iterable
  /\ Gene_introns mi g = Raise none_not_iterable.
Proof.
  intros Htr.
  unfold Gene_exons_merged, Gene_exons_overlapping,
    Gene_exons_protein_coding_merged, Gene_exons_protein_coding_overlapping,
    Gene_introns, Gene_exons, Gene_exons_protein_coding, iter_transcripts.
  by rewrite Htr.
Qed.

(** X5 on [gene_G1] as constructed without transcripts. *)
Lemma Gene_transcripts_unset_raise_witness :
  Gene_exons_merged gene_transcripts_unset = Raise none_not_iterable
  /\ Gene_exons_overlapping gene_transcripts_unset = Raise none_not_iterable
  /\ Gene_exons_protein_coding_merged gene_transcripts_unset
     = Raise none_not_iterable
  /\ Gene_exons_protein_coding_overlapping gene_transcripts_unset
     = Raise none_not_iterable
  /\ Gene_introns no_merge gene_transcripts_unset = Raise none_not_iterable.
Proof. apply Gene_transcripts_unset_raise. reflexivity. Defined.

(** X6. The protein coding properties are the plain properties of the
    gene with only its protein coding transcripts; a gene with transcripts
    none of which is protein coding gets a pair of empty arrays. *)
Theorem Gene_exons_protein_coding_filter (g : Gene) :
  Gene_exons_protein_coding_merged g = Gene_exons_merged (protein_coding_only g)
  /\ Gene_exons_protein_coding_overlapping g
     = Gene_exons_overlapping (protein_coding_only g)
  /\ (forall trs, transcripts g = Some trs ->
        Forall (fun tr => ~ protein_coding tr) trs ->
        Gene_exons_protein_coding_merged g = Ok ([], [])
        /\ Gene_exons_protein_coding_overlapping g = Ok ([], [])).
Proof.
  unfold Gene_exons_protein_coding_merged, Gene_exons_protein_coding_overlapping,
    Gene_exons_merged, Gene_exons_overlapping,
    Gene_exons_protein_coding, Gene_exons, iter_transcripts, protein_coding_only.
  destruct (transcripts g) as [trs|] eqn:Htr; simpl.
  - rewrite foldl_extend_protein_coding, foldl_extend. simpl.
    split_and!; [done|done|].
    intros trs' [= <-] Hnone.
    assert (Hf : filter protein_coding trs = []).
    { clear Htr. induction Hnone as [|tr trs Hn _ IH]; [done|].
      by rewrite filter_cons_False. }
    by rewrite Hf.
  - split_and!; [done|done|]. discriminate.
Qed.

(** X6 on a gene with a protein coding and a lincRNA transcript: the
    exons of the second are left out. *)
Lemma Gene_exons_protein_coding_filter_witness :
  Gene_exons_protein_coding_merged gene_with_transcripts
  = Ok ([10; 50], [20; 60])
  /\ Gene_exons_merged gene_with_transcripts
     = Ok ([10; 30; 50], [20; 45; 60]).
Proof.
  split.
  - rewrite (proj1 (Gene_exons_protein_coding_filter gene_with_transcripts)).
    by vm_compute.
  - by vm_compute.
Defined.

(** X7. For exons that an int64 array holds, [Gene.exons_overlapping]
    returns every exon of every transcript once per occurrence, unmerged,
    in ascending tuple order; on genomic exons [exons_merged] covers
    exactly the same coordinates. *)
Theorem Gene_exons_overlapping_sorted (g : Gene) (trs : list Transcript.t) :
  transcripts g = Some trs ->
  Forall int64 (all_exons trs) ->
  exists starts stops,
    Gene_exons_overlapping g = Ok (starts, stops)
    /\ length starts = length stops
    /\ zip starts stops ≡ₚ all_exons trs
    /\ Sorted exon_le (zip starts stops)
    /\ (Forall genomic (all_exons trs) ->
        exists mstarts mstops,
          Gene_exons_merged g = Ok (mstarts, mstops)
          /\ forall x, covered x (zip mstarts mstops)
                       <-> covered x (zip starts stops)).
Proof.
  intros Htr _. unfold Gene_exons_overlapping, Gene_exons_merged.
  rewrite (Gene_exons_all g trs Htr). simpl.
  eexists _, _. split; [done|]. rewrite zip_fst_snd. split_and!.
  - by rewrite !length_map.
  - apply sort_perm.
  - apply sort_sorted.
  - intros Hg. rewrite merge_sorted_runs.
    destruct (merge_runs_genomic_out (sort (all_exons trs)))
      as (out & -> & _ & _ & Hcov); [by apply sort_Forall|apply sort_sorted|].
    simpl. eexists _, _. split; [done|]. by rewrite zip_fst_snd.
Qed.

(** X7 on the gene with two transcripts. *)
Lemma Gene_exons_overlapping_sorted_witness :
  exists starts stops,
    Gene_exons_overlapping gene_with_transcripts = Ok (starts, stops)
    /\ length starts = length stops
    /\ zip starts stops ≡ₚ [(50, 60); (10, 20); (30, 40); (35, 45)]
    /\ Sorted exon_le (zip starts stops)
    /\ (Forall genomic [(50, 60); (10, 20); (30, 40); (35, 45)] ->
        exists mstarts mstops,
          Gene_exons_merged gene_with_transcripts = Ok (mstarts, mstops)
          /\ forall x, covered x (zip mstarts mstops)
                       <-> covered x (zip starts stops)).
Proof.
  apply (Gene_exons_overlapping_sorted gene_with_transcripts
           [transcript_T1; transcript_T4]).
  - reflexivity.
  - repeat constructor; simpl; lia.
Defined.

Lemma covered_all_exons (x : Z) (trs : list Transcript.t) :
  covered x (all_exons trs)
  <-> exists tr, tr ∈ trs /\ covered x (Transcript.exons tr).
Proof.
  unfold all_exons. induction trs as [|tr trs IH]; simpl.
  - rewrite covered_nil. split; [done|].
    intros (tr & Htr & _). by apply elem_of_nil in Htr.
  - rewrite covered_app, IH. split.
    + intros [H|(tr' & Htr' & H)]; [exists tr|exists tr']; split; auto;
        apply elem_of_cons; auto.
    + intros (tr' & Htr' & H). apply elem_of_cons in Htr' as [->|Htr']; eauto.
Qed.

(** X16. On genomic exons, [0 <= start <= stop < 2^63],
    [Gene.exons_merged] returns ascending,
    non-overlapping intervals that cover a coordinate exactly when an exon
    of some transcript of the gene covers it. *)
Theorem Gene_exons_merged_union (g : Gene) (trs : list Transcript.t) :
  transcripts g = Some trs ->
  Forall (fun tr => Forall genomic (Transcript.exons tr)) trs ->
  exists starts stops,
    Gene_exons_merged g = Ok (starts, stops)
    /\ Sorted precedes (zip starts stops)
    /\ (forall x, covered x (zip starts stops)
                  <-> exists tr, tr ∈ trs /\ covered x (Transcript.exons tr)).
Proof.
  intros Htr Hall. unfold Gene_exons_merged.
  rewrite (Gene_exons_all g trs Htr). simpl. rewrite merge_sorted_runs.
  assert (Hg : Forall genomic (all_exons trs)).
  { unfold all_exons. clear Htr. induction Hall as [|tr trs Hg _ IH]; simpl.
    - constructor.
    - apply Forall_app. by split. }
  destruct (merge_runs_genomic_out (sort (all_exons trs)))
    as (out & -> & _ & Hso & Hcov); [by apply sort_Forall|apply sort_sorted|].
  simpl. eexists _, _. split; [done|]. rewrite zip_fst_snd. split; [done|].
  intros x. by rewrite Hcov, sort_covered, covered_all_exons.
Qed.

(** X16 on the gene with two transcripts. *)
Lemma Gene_exons_merged_union_witness :
  exists starts stops,
    Gene_exons_merged gene_with_transcripts = Ok (starts, stops)
    /\ Sorted precedes (zip starts stops)
    /\ (forall x, covered x (zip starts stops)
                  <-> exists tr, tr ∈ [transcript_T1; transcript_T4]
                                 /\ covered x (Transcript.exons tr)).
Proof.
  apply (Gene_exons_merged_union gene_with_transcripts
           [transcript_T1; transcript_T4]).
  - reflexivity.
  - repeat constructor; simpl; lia.
Defined.

(** ** The walk: when it returns *)

(** X8. With [merge] false the walk returns exactly for the lists in
    which no exon is inverted, the first exon starts at or after
    [gene_start] and each exon starts at or after the stop of the one
    before; [gene_stop] is never checked: an exon beyond it raises nothing,
    and whether and what the walk raises does not depend on it. *)
Theorem intron_walk_returns mi (exons : list exon) (gene_start gene_stop : Z) :
  ((exists introns,
       _intron_intervals_from_exons mi exons gene_start gene_stop false
       = Ok introns)
   <-> chain gene_start exons)
  /\ (forall gene_stop' ex,
        _intron_intervals_from_exons mi exons gene_start gene_stop false
        = Raise ex
        <-> _intron_intervals_from_exons mi exons gene_start gene_stop' false
            = Raise ex).
Proof.
  rewrite intron_intervals_no_merge. split.
  - split.
    + intros [introns Hok].
      destruct (walk_loop exons _) as [w|ex] eqn:Hw; [|discriminate].
      by apply walk_loop_ok_chain in Hw.
    + intros Hch. rewrite walk_loop_chain by done. simpl. eauto.
  - intros gene_stop' ex. rewrite intron_intervals_no_merge.
    destruct (walk_loop exons _) as [w|ex']; simpl; [|done].
    split; discriminate.
Qed.

(** X8: an exon that ends beyond the gene's stop is walked, an exon that
    starts before the gene's start raises. *)
Lemma intron_walk_returns_witness :
  (exists introns,
      _intron_intervals_from_exons no_merge [(10, 20); (50, 160)] 0 100 false
      = Ok introns)
  /\ _intron_intervals_from_exons no_merge [(10, 20)] 15 100 false
     = Raise exons_need_merging.
Proof.
  split.
  - apply (intron_walk_returns no_merge [(10, 20); (50, 160)] 0 100).
    simpl. lia.
  - apply (proj2 (intron_walk_returns no_merge [(10, 20)] 15 0) 100
             exons_need_merging).
    reflexivity.
Defined.

(** ** The walk: what the introns look like *)

Lemma gap_length (a b : Z) : (length (gap a b) <= 1)%nat.
Proof. unfold gap. case_decide; simpl; lia. Qed.

(** Whatever the region's stop is, the gaps of a chain are not empty,
    ascending, touch no exon, and there is at most one more than exons. *)
Lemma gaps_from_chain (re : Z) (exons : list exon) :
  forall c : Z,
    chain c exons ->
    Forall (fun g => c <= g.1 /\ g.1 < g.2)
      (gaps_from c exons ++ gap (cursor_after c exons) re)
    /\ Sorted precedes (gaps_from c exons ++ gap (cursor_after c exons) re)
    /\ (forall x,
          covered x (gaps_from c exons ++ gap (cursor_after c exons) re) ->
          ~ covered x exons)
    /\ (length (gaps_from c exons ++ gap (cursor_after c exons) re)
        <= S (length exons))%nat.
Proof.
  induction exons as [|e rest IH]; intros c Hch; simpl.
  - unfold cursor_after; simpl. split_and!.
    + unfold gap. case_decide; repeat constructor; simpl; lia.
    + unfold gap. case_decide; repeat constructor.
    + intros x _ H. by apply covered_nil in H.
    + apply gap_length.
  - destruct Hch as (Hc & He & Hch). rewrite cursor_after_cons.
    destruct (IH e.2 Hch) as (Hall & Hsort & Hdis & Hlen).
    pose proof (chain_lower _ _ Hch) as Hlow.
    rewrite <- app_assoc. split_and!.
    + apply Forall_app. split.
      * unfold gap. case_decide; repeat constructor; simpl; lia.
      * eapply Forall_impl; [exact Hall|]. simpl. intros; lia.
    + unfold gap at 1. case_decide; [|done]. simpl.
      constructor; [done|].
      destruct Hall as [|g gs Hg _]; constructor.
      unfold precedes; simpl. lia.
    + intros x. rewrite covered_app, covered_gap, covered_cons.
      intros [Hx|Hx] [Hex|Hex].
      * lia.
      * destruct Hex as (g & Hg & Hxg).
        rewrite Forall_forall in Hlow. apply Hlow in Hg. simpl in Hg. lia.
      * destruct Hx as (g & Hg & Hxg).
        rewrite Forall_forall in Hall. apply Hall in Hg. simpl in Hg. lia.
      * by apply (Hdis x).
    + rewrite length_app. pose proof (gap_length c e.1). simpl. lia.
Qed.

(** X9. Whenever the walk returns, with [merge] false, no intron is
    empty or starts before [gene_start], the introns are ascending and do
    not overlap, no intron shares a coordinate with an exon, and there is
    at most one intron more than there are exons. *)
Theorem introns_well_formed mi (exons introns : list exon)
    (gene_start gene_stop : Z) :
  _intron_intervals_from_exons mi exons gene_start gene_stop false = Ok introns ->
  Forall (fun g => gene_start <= g.1 /\ g.1 < g.2) introns
  /\ Sorted precedes introns
  /\ (forall x, covered x introns -> ~ covered x exons)
  /\ (length introns <= S (length exons))%nat.
Proof.
  intros Hok.
  assert (Hch : chain gene_start exons).
  { rewrite intron_intervals_no_merge in Hok.
    destruct (walk_loop exons _) as [w|ex] eqn:Hw; [|discriminate].
    by apply walk_loop_ok_chain in Hw. }
  rewrite intron_intervals_chain in Hok by done. simplify_eq.
  rewrite complementary_gaps_from. by apply gaps_from_chain.
Qed.

(** X9 on two exons, the second ending beyond the gene's stop. *)
Lemma introns_well_formed_witness :
  Forall (fun g => 0 <= g.1 /\ g.1 < g.2) [(0, 10); (20, 50)]
  /\ Sorted precedes [(0, 10); (20, 50)]
  /\ (forall x, covered x [(0, 10); (20, 50)]
                -> ~ covered x [(10, 20); (50, 160)])
  /\ (length [(0, 10); (20, 50)] <= S (length [(10, 20); (50, 160)]))%nat.
Proof.
  apply (introns_well_formed no_merge [(10, 20); (50, 160)]
           [(0, 10); (20, 50)] 0 100).
  reflexivity.
Defined.

(** ** The walk: exons and introns fill the region *)

Lemma total_length_app (l1 l2 : list exon) :
  total_length (l1 ++ l2) = total_length l1 + total_length l2.
Proof. induction l1 as [|e l1 IH]; simpl; [done|]. rewrite IH. lia. Qed.

Lemma total_length_gap (a b : Z) : a <= b -> total_length (gap a b) = b - a.
Proof. intros H. unfold gap. case_decide; simpl; lia. Qed.

Lemma gaps_from_length (re : Z) (exons : list exon) :
  forall c : Z,
    chain c exons -> cursor_after c exons <= re ->
    total_length exons
    + total_length (gaps_from c exons ++ gap (cursor_after c exons) re)
    = re - c.
Proof.
  induction exons as [|e rest IH]; intros c Hch Hre; simpl.
  - unfold cursor_after in *; simpl in *. rewrite total_length_gap; lia.
  - destruct Hch as (Hc & He & Hch). rewrite cursor_after_cons in *.
    specialize (IH e.2 Hch Hre).
    rewrite <- app_assoc, total_length_app, total_length_gap by done. lia.
Qed.

Lemma chain_cursor_le (re : Z) (exons : list exon) :
  forall c : Z,
    c <= re -> Forall (fun e => e.2 <= re) exons -> cursor_after c exons <= re.
Proof.
  induction exons as [|e rest IH]; intros c Hc Hall; [done|].
  apply Forall_cons in Hall as [He Hall]. rewrite cursor_after_cons. by apply IH.
Qed.

(** X10. Exons and introns fill the region: for ascending,
    non-overlapping exons inside a region the lengths of the exons and of
    the introns add up to the length of the region. *)
Theorem exons_and_introns_fill_region mi (exons : list exon)
    (region_start region_stop : Z) :
  region_start <= region_stop ->
  Forall (inside region_start region_stop) exons ->
  StronglySorted precedes exons ->
  exists introns,
    _intron_intervals_from_exons mi exons region_start region_stop false
    = Ok introns
    /\ total_length exons + total_length introns = region_stop - region_start.
Proof.
  intros Hreg Hin Hs. apply StronglySorted_Sorted in Hs.
  pose proof (inside_chain _ _ _ Hin Hs) as Hch.
  rewrite intron_intervals_chain by done. eexists; split; [done|].
  rewrite complementary_gaps_from. apply gaps_from_length; [done|].
  apply chain_cursor_le; [done|].
  eapply Forall_impl; [exact Hin|]. unfold inside. tauto.
Qed.

(** X10 on the region [0, 100) with two exons of length 10. *)
Lemma exons_and_introns_fill_region_witness :
  exists introns,
    _intron_intervals_from_exons no_merge [(10, 20); (50, 60)] 0 100 false
    = Ok introns
    /\ total_length [(10, 20); (50, 60)] + total_length introns = 100 - 0.
Proof.
  apply (exons_and_introns_fill_region no_merge [(10, 20); (50, 60)] 0 100).
  - lia.
  - repeat constructor; simpl; lia.
  - repeat constructor; unfold precedes; simpl; lia.
Defined.

(** ** Transcript.introns: order and overlap of the exons *)

(** X11. The order in which a transcript stores its exons does not
    change its introns. *)
Theorem Transcript_introns_permutation mi (tr tr' : Transcript.t) :
  Transcript.exons tr ≡ₚ Transcript.exons tr' ->
  Transcript.gene tr = Transcript.gene tr' ->
  Transcript_introns mi tr = Transcript_introns mi tr'.
Proof.
  intros Hp Hg. unfold Transcript_introns.
  rewrite !Transcript_exons_tuples_id, Hg.
  by rewrite (sort_permutation _ _ Hp).
Qed.

(** X11 on [transcript_T1] and the same transcript with its exons in
    ascending order. *)
Lemma Transcript_introns_permutation_witness :
  Transcript_introns no_merge transcript_T1
  = Transcript_introns no_merge
      (Transcript.mk "T1" "G1" "transcript one" "1" 10 60 1 "protein_coding"
         [(10, 20); (50, 60)] ["E1"; "E2"] gene_G1).
Proof.
  apply Transcript_introns_permutation; [|reflexivity].
  apply Permutation_swap.
Defined.

(** The walk raises one of its two errors, the first only at an inverted
    exon. *)
Lemma walk_loop_raise_cases (exons : list exon) :
  forall (w : walk) (ex : exception),
    walk_loop exons w = Raise ex ->
    (ex = inverted_exon /\ exists e, e ∈ exons /\ e.2 < e.1)
    \/ ex = exons_need_merging.
Proof.
  induction exons as [|e rest IH]; intros w ex Hr; simpl in Hr; [discriminate|].
  destruct (walk_body_cases e w) as [[He H]|[(_ & _ & H)|(_ & _ & H)]];
    rewrite H in Hr; simpl in Hr.
  - left. simplify_eq. split; [done|]. exists e. split; [left|done].
  - right. by simplify_eq.
  - apply IH in Hr as [[-> (e' & He' & Hinv)]| ->]; [left|by right].
    split; [done|]. exists e'. split; [by right|done].
Qed.

(** In a chain no two exons strictly overlap. *)
Lemma chain_separated (exons : list exon) :
  forall (c : Z) (a b : exon),
    chain c exons -> a ∈ exons -> b ∈ exons ->
    a = b \/ a.2 <= b.1 \/ b.2 <= a.1.
Proof.
  induction exons as [|e rest IH]; intros c a b Hch Ha Hb.
  - by apply elem_of_nil in Ha.
  - destruct Hch as (_ & He & Hch).
    pose proof (chain_lower _ _ Hch) as Hlow. rewrite Forall_forall in Hlow.
    apply elem_of_cons in Ha as [->|Ha]; apply elem_of_cons in Hb as [->|Hb].
    + by left.
    + right; left. apply Hlow in Hb. simpl in Hb. lia.
    + right; right. apply Hlow in Ha. simpl in Ha. lia.
    + by apply (IH e.2).
Qed.

(** X12. A transcript with two different exons that strictly overlap,
    none of its exons inverted, raises the merge error. *)
Theorem Transcript_introns_overlap mi (tr : Transcript.t) (a b : exon) :
  Forall valid (Transcript.exons tr) ->
  a ∈ Transcript.exons tr -> b ∈ Transcript.exons tr ->
  a ≠ b -> strictly_overlap a b ->
  Transcript_introns mi tr = Raise exons_need_merging.
Proof.
  intros Hv Ha Hb Hne [Hab Hba]. unfold Transcript_introns.
  rewrite Transcript_exons_tuples_id, intron_intervals_no_merge.
  destruct (walk_loop _ _) as [w|ex] eqn:Hw; simpl.
  - apply walk_loop_ok_chain in Hw. simpl in Hw.
    destruct (chain_separated _ _ a b Hw) as [?|[?|?]];
      try (by rewrite (sort_perm _)); try done; lia.
  - apply walk_loop_raise_cases in Hw as [[_ (e & He & Hinv)]| ->]; [|done].
    rewrite (sort_perm _) in He.
    rewrite Forall_forall in Hv. apply Hv in He. unfold valid in He. lia.
Qed.

(** X12 on [transcript_T4]. *)
Lemma Transcript_introns_overlap_witness :
  Transcript_introns no_merge transcript_T4 = Raise exons_need_merging.
Proof.
  apply (Transcript_introns_overlap no_merge transcript_T4 (30, 40) (35, 45)).
  - repeat constructor; unfold valid; simpl; lia.
  - left.
  - right. left.
  - intros [= ?].
  - unfold strictly_overlap; simpl; lia.
Defined.

(** ** merge_exons before the walk *)

(** X13. What [merge_exons] returns can always be walked with [merge]
    false: for exons inside a region that starts at or after 0 and stops
    below 2^63 the walk over the merged exons returns, and its introns
    cover exactly the coordinates of the region that no input exon
    covers. *)
Theorem merged_exons_walk mi (exons : list exon) (gene_start gene_stop : Z) :
  0 <= gene_start ->
  gene_stop < 2 ^ 63 ->
  Forall (inside gene_start gene_stop) exons ->
  exists starts stops introns,
    (merge_exons exons).2 = Ok (starts, stops)
    /\ _intron_intervals_from_exons mi (zip starts stops)
         gene_start gene_stop false = Ok introns
    /\ (forall x, gene_start <= x < gene_stop ->
          (covered x introns <-> ~ covered x exons)).
Proof.
  intros H0 H63 Hin.
  assert (Hg : Forall genomic exons).
  { eapply Forall_impl; [exact Hin|]. unfold inside, genomic. intros; lia. }
  rewrite merge_exons_runs. cbn [snd].
  destruct (merge_runs_genomic_out (sort exons)) as (out & Hout & Hgo & Hso & Hcov);
    [by apply sort_Forall|apply sort_sorted|].
  pose proof (merge_runs_coordinates _ _ (sort_Forall _ _ Hg) Hout) as Hco.
  rewrite Hout. simpl. exists (map fst out), (map snd out). rewrite zip_fst_snd.
  assert (Hio : Forall (inside gene_start gene_stop) out).
  { rewrite Forall_forall in Hco, Hgo, Hin. apply Forall_forall. intros r Hr.
    destruct (Hco r Hr) as [H1 H2]. destruct (Hgo r Hr) as [_ Hv].
    apply list_elem_of_fmap in H1 as (e1 & H1 & He1).
    apply list_elem_of_fmap in H2 as (e2 & H2 & He2).
    rewrite (sort_perm exons) in He1, He2.
    apply Hin in He1, He2. unfold inside in *. lia. }
  pose proof (inside_chain _ _ _ Hio Hso) as Hch.
  rewrite intron_intervals_chain by done.
  eexists; split; [done|]. split; [done|].
  assert (Hre : Forall (fun e => e.2 <= gene_stop) out).
  { eapply Forall_impl; [exact Hio|]. unfold inside. tauto. }
  destruct (gaps_from_spec gene_stop out gene_start Hch Hre) as (_ & _ & Hgap).
  intros x Hx. rewrite complementary_gaps_from, (Hgap x Hx), Hcov.
  by rewrite sort_covered.
Qed.

(** X13 on three exons, two of them overlapping. *)
Lemma merged_exons_walk_witness :
  exists starts stops introns,
    (merge_exons [(30, 40); (10, 20); (35, 45)]).2 = Ok (starts, stops)
    /\ _intron_intervals_from_exons no_merge (zip starts stops) 0 100 false
       = Ok introns
    /\ (forall x, 0 <= x < 100 ->
          (covered x introns <-> ~ covered x [(30, 40); (10, 20); (35, 45)])).
Proof.
  apply (merged_exons_walk no_merge [(30, 40); (10, 20); (35, 45)] 0 100).
  - lia.
  - lia.
  - repeat constructor; simpl; lia.
Defined.

(** ** The walk after merge_intervals *)

Lemma zip_star_cons (e : exon) (rest : list exon) :
  zip_star (e :: rest) = [map fst (e :: rest); map snd (e :: rest)].
Proof. done. Qed.

(** X14. With [merge] true the walk raises IndexError on an empty exon
    list before [merge_intervals] is called; on other lists an error of
    [merge_intervals] is passed on, the walk is the one over the rows
    [merge_intervals] returns, and when these are the rows it was given
    the result is that of [merge] false. *)
Theorem intron_intervals_merge mi (exons : list exon)
    (gene_start gene_stop : Z) :
  (exons = [] ->
   _intron_intervals_from_exons mi exons gene_start gene_stop true
   = Raise list_index_out_of_range)
  /\ (exons <> [] ->
      (forall ex, mi (exon_table exons) = Raise ex ->
         _intron_intervals_from_exons mi exons gene_start gene_stop true
         = Raise ex)
      /\ (forall df, mi (exon_table exons) = Ok df ->
            _intron_intervals_from_exons mi exons gene_start gene_stop true
            = _intron_intervals_from_exons mi (zip (df_start df) (df_stop df))
                gene_start gene_stop false)
      /\ (mi (exon_table exons) = Ok (exon_table exons) ->
          _intron_intervals_from_exons mi exons gene_start gene_stop true
          = _intron_intervals_from_exons mi exons gene_start gene_stop false)).
Proof.
  split.
  - by intros ->.
  - intros Hne. destruct exons as [|e rest]; [done|].
    unfold _intron_intervals_from_exons, premerge.
    rewrite zip_star_cons. cbn [list_getitem lookup list_lookup mbind result_bind].
    fold (exon_table (e :: rest)). split_and!.
    + by intros ex ->.
    + by intros df ->.
    + intros ->. cbn [mbind result_bind exon_table df_start df_stop].
      by rewrite zip_fst_snd.
Qed.

(** X14 with a [merge_intervals] that returns its table. *)
Lemma intron_intervals_merge_witness :
  _intron_intervals_from_exons no_merge [(10, 20); (50, 60)] 0 100 true
  = _intron_intervals_from_exons no_merge [(10, 20); (50, 60)] 0 100 false.
Proof.
  apply (intron_intervals_merge no_merge [(10, 20); (50, 60)] 0 100).
  - discriminate.
  - reflexivity.
Defined.

(** ** Gene.introns without exons *)

(** X15. [Gene.introns] raises IndexError for every gene none of whose
    transcripts has an exon, whatever [merge_intervals] is. *)
Theorem Gene_introns_no_exons mi (g : Gene) (trs : list Transcript.t) :
  transcripts g = Some trs ->
  Forall (fun tr => Transcript.exons tr = []) trs ->
  Gene_introns mi g = Raise list_index_out_of_range.
Proof.
  intros Htr Hall. unfold Gene_introns, iter_transcripts. rewrite Htr. simpl.
  assert (Hex : foldl (fun exons tr => exons ++ Transcript.exons tr) [] trs = []).
  { clear Htr. induction Hall as [|tr trs Htr' _ IH]; [done|].
    simpl. by rewrite Htr'. }
  by rewrite Hex.
Qed.

(** X15 on a gene with two transcripts without exons. *)
Lemma Gene_introns_no_exons_witness :
  Gene_introns no_merge (mkGene gene_G1 (Some [transcript_T2; transcript_T2]))
  = Raise list_index_out_of_range.
Proof.
  apply (Gene_introns_no_exons no_merge _ [transcript_T2; transcript_T2]).
  - reflexivity.
  - repeat constructor.
Defined.
